(** * Blossom client: session store, API client interceptors, route guard

    A shallow embedding of the session/auth lifecycle of the Expo client:

    - [src/utils/storage.ts]     the cross-platform key-value store,
    - [src/store/authStore.ts]   the zustand session store,
    - [src/services/api.ts]      the axios instance and its interceptors,
    - [app/_layout.tsx]          startup resolution ([loadAuth]) and the
                                 route guard.

    Asynchronous functions are modelled in a state-and-rejection monad over
    an explicit [World]: the two platform stores, an oracle for platform I/O
    faults, the backend's replies, the zustand state, the continuations of
    promises that were started but not awaited, and a trace of effects. *)

From Stdlib Require Import ZArith Lia.
From stdpp Require Import base tactics option list strings gmap.

Local Open Scope Z_scope.

(** ** JavaScript values *)

Module Js.

(** [!!s] for [s : string]: only the empty string is falsy. *)
Definition truthy_string (s : string) : bool :=
  if decide (s = EmptyString) then false else true.

(** [!!token] and [if (token)] for [token : string | null]. *)
Definition truthy (token : option string) : bool :=
  match token with
  | Some s => truthy_string s
  | None => false
  end.

(** [!!user] for [user : User | null]: every object is truthy. *)
Definition truthy_obj {A : Type} (o : option A) : bool :=
  match o with
  | Some _ => true
  | None => false
  end.

End Js.

(** ** The session store's data (authStore.ts, lines 4-22) *)

Record User : Type := mkUser {
  user_id : string;
  email : string;
  name : string;
  picture : option string;
  bio : option string;
  pregnancy_stage : option string;
  due_date : option string;
  children_count : Z;
  interests : list string;
  is_premium : bool;
  created_at : string
}.

Record AuthState : Type := mkAuthState {
  user : option User;
  token : option string;
  isLoading : bool;
  isAuthenticated : bool
}.

(** The argument of zustand's [set]: a partial state, merged shallowly into
    the current one. A field that is [None] is not mentioned by the caller. *)
Record Partial : Type := mkPartial {
  p_user : option (option User);
  p_token : option (option string);
  p_isLoading : option bool;
  p_isAuthenticated : option bool
}.

Definition merge (p : Partial) (s : AuthState) : AuthState :=
  {| user := default (user s) (p_user p);
     token := default (token s) (p_token p);
     isLoading := default (isLoading s) (p_isLoading p);
     isAuthenticated := default (isAuthenticated s) (p_isAuthenticated p) |}.

(** The state [create] starts from (authStore.ts, lines 31-34). *)
Definition initial : AuthState :=
  {| user := None; token := None; isLoading := true; isAuthenticated := false |}.

(** ** HTTP data (axios) *)

Inductive Method : Type := GET | POST | PUT.

Record Config : Type := mkConfig {
  method : Method;
  url : string;
  headers : gmap string string;
  data : list (string * string)
}.

(** [response.data] is untyped in the source; the store consumes it as
    [User | null]. *)
Record Response : Type := mkResponse {
  status : Z;
  body : option User
}.

Record AxiosError : Type := mkAxiosError {
  err_config : Config;
  err_response : option Response
}.

Inductive Reply : Type :=
| Replied (r : Response)
| Unreachable.

(** ** The world *)

Inductive OS : Type := ios | android | web.

Inductive Area : Type := Secure | Local.

(** What a rejected promise carries. *)
Inductive Reason : Type :=
| IOFault (a : Area)
| RequestFailed (e : AxiosError)
| ReferenceError (name : string).

Inductive Effect : Type :=
| Read (a : Area) (key : string)
| Wrote (a : Area) (key value : string)
| Removed (a : Area) (key : string)
| Faulted (a : Area)
| Updated (p : Partial)
| Sent (c : Config).

Record World : Type := mkWorld {
  platform : OS;
  secureStore : gmap string string;
  localStorage : gmap string string;
  (* oracle: [true] makes the next platform storage operation fault *)
  ioFaults : list bool;
  network : Config -> Reply;
  session : AuthState;
  (* state updates of promises that were started and not awaited *)
  pending : list Partial;
  (* how many further suspensions pass before [pending] runs *)
  patience : nat;
  unhandled : list Reason;
  trace : list Effect
}.

Definition with_secureStore (m : gmap string string) (w : World) : World :=
  mkWorld (platform w) m (localStorage w) (ioFaults w) (network w)
          (session w) (pending w) (patience w) (unhandled w) (trace w).

Definition with_localStorage (m : gmap string string) (w : World) : World :=
  mkWorld (platform w) (secureStore w) m (ioFaults w) (network w)
          (session w) (pending w) (patience w) (unhandled w) (trace w).

Definition with_ioFaults (f : list bool) (w : World) : World :=
  mkWorld (platform w) (secureStore w) (localStorage w) f (network w)
          (session w) (pending w) (patience w) (unhandled w) (trace w).

Definition with_session (s : AuthState) (w : World) : World :=
  mkWorld (platform w) (secureStore w) (localStorage w) (ioFaults w) (network w)
          s (pending w) (patience w) (unhandled w) (trace w).

Definition with_pending (q : list Partial) (w : World) : World :=
  mkWorld (platform w) (secureStore w) (localStorage w) (ioFaults w) (network w)
          (session w) q (patience w) (unhandled w) (trace w).

Definition with_patience (n : nat) (w : World) : World :=
  mkWorld (platform w) (secureStore w) (localStorage w) (ioFaults w) (network w)
          (session w) (pending w) n (unhandled w) (trace w).

Definition with_unhandled (u : list Reason) (w : World) : World :=
  mkWorld (platform w) (secureStore w) (localStorage w) (ioFaults w) (network w)
          (session w) (pending w) (patience w) u (trace w).

Definition with_trace (t : list Effect) (w : World) : World :=
  mkWorld (platform w) (secureStore w) (localStorage w) (ioFaults w) (network w)
          (session w) (pending w) (patience w) (unhandled w) t.

Definition log (e : Effect) (w : World) : World :=
  with_trace (trace w ++ [e]) w.

(** The world at process start. *)
Definition boot (os : OS) (secure local : gmap string string)
    (faults : list bool) (net : Config -> Reply) (n : nat) : World :=
  mkWorld os secure local faults net initial [] n [] [].

(** ** Promises *)

Inductive Settled (A : Type) : Type :=
| Fulfilled (a : A)
| Rejected (e : Reason).

Arguments Fulfilled {A} a.
Arguments Rejected {A} e.

Definition Async (A : Type) : Type := World -> Settled A * World.

Definition resolve {A : Type} (a : A) : Async A :=
  fun w => (Fulfilled a, w).

Definition reject {A : Type} (e : Reason) : Async A :=
  fun w => (Rejected e, w).

(** Evaluating an identifier that no declaration or import of the module
    binds throws a ReferenceError; inside an async function the throw is the
    rejection of the function's promise. *)
Definition unbound {A : Type} (name : string) : Async A :=
  reject (ReferenceError name).

Definition bind {A B : Type} (m : Async A) (k : A -> Async B) : Async B :=
  fun w =>
    match m w with
    | (Fulfilled a, w') => k a w'
    | (Rejected e, w') => (Rejected e, w')
    end.

Declare Scope async_scope.
Delimit Scope async_scope with async.

Notation "x <- m ;; k" := (bind m (fun x => k))
  (at level 100, m at next level, right associativity) : async_scope.
Notation "m ;; k" := (bind m (fun _ => k))
  (at level 100, right associativity) : async_scope.

Local Open Scope async_scope.

(** [try { m } catch (error) { h error }] *)
Definition try_catch {A : Type} (m : Async A) (h : Reason -> Async A) : Async A :=
  fun w =>
    match m w with
    | (Fulfilled a, w') => (Fulfilled a, w')
    | (Rejected e, w') => h e w'
    end.

(** [try { m } finally { f }]: [f] runs on both exits; the outcome is [m]'s
    unless [f] itself rejects. *)
Definition try_finally {A : Type} (m : Async A) (f : Async unit) : Async A :=
  fun w =>
    match m w with
    | (r, w') =>
        match f w' with
        | (Fulfilled _, w'') => (r, w'')
        | (Rejected e, w'') => (Rejected e, w'')
        end
    end.

(** *** Suspension

    [await] runs the awaited operation and suspends the caller. While it is
    suspended the event loop may run the continuation of a promise that was
    started and not awaited; [patience] says at which suspension that
    happens. *)

Definition apply_update (w : World) (p : Partial) : World :=
  log (Updated p) (with_session (merge p (session w)) w).

Definition run_pending (w : World) : World :=
  fold_left apply_update (pending w) (with_pending [] w).

Definition tick (w : World) : World :=
  match pending w with
  | [] => w
  | _ :: _ =>
      match patience w with
      | O => run_pending w
      | S n => with_patience n w
      end
  end.

Definition await {A : Type} (m : Async A) : Async A :=
  fun w => match m w with (r, w') => (r, tick w') end.

(** An async function of the shape [await io; set(update)] that is called
    without [await]: its body runs up to the suspension, the rest is left to
    the event loop, and a rejection has no handler. *)
Definition detached (io : Async unit) (update : Partial) : Async unit :=
  fun w =>
    match io w with
    | (Fulfilled _, w') => (Fulfilled tt, with_pending (pending w' ++ [update]) w')
    | (Rejected e, w') => (Fulfilled tt, with_unhandled (unhandled w' ++ [e]) w')
    end.

(** Everything still in flight runs to completion. *)
Definition settle (w : World) : World := run_pending w.

(** ** Platform stores *)

(** One platform storage operation: it faults when the oracle says so and
    otherwise performs [ok]. *)
Definition platform_io {A : Type} (a : Area) (ok : World -> A * World) : Async A :=
  fun w =>
    let w' := with_ioFaults (tail (ioFaults w)) w in
    match head (ioFaults w) with
    | Some true => (Rejected (IOFault a), log (Faulted a) w')
    | _ => match ok w' with (x, w'') => (Fulfilled x, w'') end
    end.

(** expo-secure-store *)
Module SecureStore.

Definition getItemAsync (key : string) : Async (option string) :=
  platform_io Secure (fun w => (secureStore w !! key, log (Read Secure key) w)).

Definition setItemAsync (key value : string) : Async unit :=
  platform_io Secure (fun w =>
    (tt, log (Wrote Secure key value)
             (with_secureStore (<[key := value]> (secureStore w)) w))).

Definition deleteItemAsync (key : string) : Async unit :=
  platform_io Secure (fun w =>
    (tt, log (Removed Secure key)
             (with_secureStore (delete key (secureStore w)) w))).

End SecureStore.

(** The browser's [localStorage]; its calls are synchronous, and a throw
    inside the enclosing async function becomes a rejection. *)
Module LocalStorage.

Definition getItem (key : string) : Async (option string) :=
  platform_io Local (fun w => (localStorage w !! key, log (Read Local key) w)).

Definition setItem (key value : string) : Async unit :=
  platform_io Local (fun w =>
    (tt, log (Wrote Local key value)
             (with_localStorage (<[key := value]> (localStorage w)) w))).

Definition removeItem (key : string) : Async unit :=
  platform_io Local (fun w =>
    (tt, log (Removed Local key)
             (with_localStorage (delete key (localStorage w)) w))).

End LocalStorage.

(** [Platform.OS === 'web'] *)
Definition is_web (os : OS) : bool :=
  match os with
  | web => true
  | _ => false
  end.

(** src/utils/storage.ts *)
Module storage.

Definition getItem (key : string) : Async (option string) :=
  fun w =>
    if is_web (platform w) then LocalStorage.getItem key w
    else await (SecureStore.getItemAsync key) w.

Definition setItem (key value : string) : Async unit :=
  fun w =>
    if is_web (platform w) then LocalStorage.setItem key value w
    else await (SecureStore.setItemAsync key value) w.

Definition deleteItem (key : string) : Async unit :=
  fun w =>
    if is_web (platform w) then LocalStorage.removeItem key w
    else await (SecureStore.deleteItemAsync key) w.

End storage.

Definition auth_token : string := "auth_token".

(** ** The session store (src/store/authStore.ts)

    The repository holds the store twice, line for line the same except for
    the persistence calls: one calls [SecureStore] directly, the other goes
    through [storage]. [Persistence] selects between them. *)

Inductive Persistence : Type := DirectSecureStore | ViaStorage.

Definition persist_get (via : Persistence) (key : string) : Async (option string) :=
  match via with
  | DirectSecureStore => SecureStore.getItemAsync key
  | ViaStorage => storage.getItem key
  end.

Definition persist_set (via : Persistence) (key value : string) : Async unit :=
  match via with
  | DirectSecureStore => SecureStore.setItemAsync key value
  | ViaStorage => storage.setItem key value
  end.

Definition persist_delete (via : Persistence) (key : string) : Async unit :=
  match via with
  | DirectSecureStore => SecureStore.deleteItemAsync key
  | ViaStorage => storage.deleteItem key
  end.

(** The area a persistence flavour addresses on the world's platform, and
    its contents. *)
Definition area_of (via : Persistence) (w : World) : Area :=
  match via with
  | DirectSecureStore => Secure
  | ViaStorage => if is_web (platform w) then Local else Secure
  end.

Definition contents (a : Area) (w : World) : gmap string string :=
  match a with
  | Secure => secureStore w
  | Local => localStorage w
  end.

(** zustand's [set] *)
Definition set (p : Partial) : Async unit :=
  fun w => (Fulfilled tt, apply_update w p).

(** [setUser: (user) => set({ user, isAuthenticated: !!user })] *)
Definition setUser_update (u : option User) : Partial :=
  {| p_user := Some u; p_token := None; p_isLoading := None;
     p_isAuthenticated := Some (Js.truthy_obj u) |}.

Definition setUser (u : option User) : Async unit :=
  set (setUser_update u).

(** [setToken], up to its suspension: the [if (token)] and the persistence
    call. *)
Definition setToken_persist (via : Persistence) (t : option string) : Async unit :=
  match t with
  | Some s =>
      if Js.truthy_string s then persist_set via auth_token s
      else persist_delete via auth_token
  | None => persist_delete via auth_token
  end.

(** [set({ token, isAuthenticated: !!token })] *)
Definition setToken_update (t : option string) : Partial :=
  {| p_user := None; p_token := Some t; p_isLoading := None;
     p_isAuthenticated := Some (Js.truthy t) |}.

Definition setToken (via : Persistence) (t : option string) : Async unit :=
  await (setToken_persist via t) ;;
  set (setToken_update t).

(** [setLoading: (loading) => set({ isLoading: loading })] *)
Definition setLoading_update (loading : bool) : Partial :=
  {| p_user := None; p_token := None; p_isLoading := Some loading;
     p_isAuthenticated := None |}.

Definition setLoading (loading : bool) : Async unit :=
  set (setLoading_update loading).

(** [set({ user: null, token: null, isAuthenticated: false })] *)
Definition logout_update : Partial :=
  {| p_user := Some None; p_token := Some None; p_isLoading := None;
     p_isAuthenticated := Some false |}.

Definition logout (via : Persistence) : Async unit :=
  await (persist_delete via auth_token) ;;
  set logout_update.

(** [set({ token, user, isAuthenticated: true, isLoading: false })] *)
Definition login_update (t : string) (u : User) : Partial :=
  {| p_user := Some (Some u); p_token := Some (Some t);
     p_isLoading := Some false; p_isAuthenticated := Some true |}.

Definition login (via : Persistence) (t : string) (u : User) : Async unit :=
  await (persist_set via auth_token t) ;;
  set (login_update t u).

(** ** The API client (src/services/api.ts) *)

(** [promise.then(onFulfilled, onRejected)]: [onRejected] sees the
    rejections of [m] only. *)
Definition and_then {A B : Type} (m : Async A)
    (onFulfilled : A -> Async B) (onRejected : Reason -> Async B) : Async B :=
  fun w =>
    match m w with
    | (Fulfilled a, w') => onFulfilled a w'
    | (Rejected e, w') => onRejected e w'
    end.

Definition set_header (k v : string) (config : Config) : Config :=
  mkConfig (method config) (url config) (<[k := v]> (headers config)) (data config).

(** [error.response?.status] *)
Definition response_status (error : Reason) : option Z :=
  match error with
  | RequestFailed e => status <$> err_response e
  | IOFault _ | ReferenceError _ => None
  end.

(** axios' default [validateStatus] *)
Definition validateStatus (s : Z) : bool := (200 <=? s) && (s <? 300).

(** The transport: the request goes out as configured, and a reply outside
    2xx or no reply at all rejects. *)
Definition dispatchRequest (config : Config) : Async Response :=
  fun w =>
    match network w config with
    | Replied r =>
        if validateStatus (status r) then (Fulfilled r, log (Sent config) w)
        else (Rejected (RequestFailed (mkAxiosError config (Some r))),
              log (Sent config) w)
    | Unreachable =>
        (Rejected (RequestFailed (mkAxiosError config None)), log (Sent config) w)
    end.

Module api.

(** [axios.create({ ..., headers: { 'Content-Type': 'application/json' } })] *)
Definition default_headers : gmap string string :=
  {[ "Content-Type"%string := "application/json"%string ]}.

(** The module imports [axios] and [storage] and nothing else (lines 1-2),
    and declares [API_URL] and [api]. Both interceptors name [SecureStore]
    (lines 16 and 33), which is therefore a free identifier: the call
    [SecureStore.getItemAsync('auth_token')], and likewise
    [SecureStore.deleteItemAsync('auth_token')], throws before anything is
    read or deleted, and before the [await] suspends. *)

(** Request interceptor (lines 14-25). *)
Definition request_onFulfilled (config : Config) : Async Config :=
  t <- unbound "SecureStore" ;;
  match t : option string with
  | Some s =>
      if Js.truthy_string s
      then resolve (set_header "Authorization" ("Bearer " +:+ s) config)
      else resolve config
  | None => resolve config
  end.

Definition request_onRejected (error : Reason) : Async Config :=
  reject error.

(** Response interceptor (lines 28-37). *)
Definition response_onFulfilled (response : Response) : Async Response :=
  resolve response.

Definition response_onRejected (error : Reason) : Async Response :=
  if decide (response_status error = Some 401) then
    (unbound "SecureStore" : Async unit) ;;
    reject error
  else reject error.

(** axios' chain: request interceptors, transport, response interceptors. *)
Definition request (config : Config) : Async Response :=
  and_then
    (and_then
       (and_then (resolve config) request_onFulfilled request_onRejected)
       dispatchRequest reject)
    response_onFulfilled response_onRejected.

Definition get (path : string) : Async Response :=
  request (mkConfig GET path default_headers []).

Definition post (path : string) (payload : list (string * string)) : Async Response :=
  request (mkConfig POST path default_headers payload).

Definition put (path : string) (payload : list (string * string)) : Async Response :=
  request (mkConfig PUT path default_headers payload).

End api.

Module authAPI.

Definition register (email password name : string) : Async Response :=
  api.post "/auth/register"
    [("email"%string, email); ("password"%string, password); ("name"%string, name)].

Definition login (email password : string) : Async Response :=
  api.post "/auth/login" [("email"%string, email); ("password"%string, password)].

Definition getMe : Async Response := api.get "/auth/me".

Definition logout : Async Response := api.post "/auth/logout" [].

End authAPI.

(** ** The root layout (app/_layout.tsx) *)

(** Startup resolution (lines 16-34). [setToken(token)] is called without
    [await]. First the [try] block with its [catch] (lines 17-30). *)
Definition loadAuth_guarded (via : Persistence) : Async unit :=
  try_catch
    (t <- await (storage.getItem auth_token) ;;
     if Js.truthy t then
       (detached (setToken_persist via t) (setToken_update t) ;;
        response <- await authAPI.getMe ;;
        setUser (body response))
     else resolve tt)
    (fun error =>
       try_catch (await (storage.deleteItem auth_token))
                 (fun e => resolve tt)).

(** ... and the [finally] (lines 31-33). *)
Definition loadAuth (via : Persistence) : Async unit :=
  try_finally (loadAuth_guarded via) (setLoading false).

(** A whole startup run: [loadAuth], and then whatever it left in flight. *)
Definition startup (via : Persistence) (w : World) : World :=
  settle (snd (loadAuth via w)).

(** The route guard (lines 40-51). *)
Inductive Navigation : Type := replace (href : string).

(** [segments[0] === s]; [segments[0]] is [undefined] on an empty list. *)
Definition segment_is (segments : list string) (s : string) : bool :=
  bool_decide (segments !! 0%nat = Some s).

Definition routeGuard (isLoading isAuthenticated : bool)
    (segments : list string) : list Navigation :=
  if isLoading then []
  else
    let inAuthGroup := segment_is segments "(auth)" in
    let inTabsGroup := segment_is segments "(tabs)" in
    if negb isAuthenticated && negb inAuthGroup then [replace "/"]
    else if isAuthenticated && negb inTabsGroup
            && negb (segment_is segments "post")
            && negb (segment_is segments "forum")
            && negb (segment_is segments "group")
            && negb (segment_is segments "resources")
            && negb (segment_is segments "premium")
    then [replace "/(tabs)"]
    else [].

(** ** Sequences of store calls *)

Inductive Op : Type :=
| OpSetUser (u : option User)
| OpSetToken (t : option string)
| OpSetLoading (loading : bool)
| OpLogin (t : string) (u : User)
| OpLogout.

Definition exec (via : Persistence) (op : Op) : Async unit :=
  match op with
  | OpSetUser u => setUser u
  | OpSetToken t => setToken via t
  | OpSetLoading b => setLoading b
  | OpLogin t u => login via t u
  | OpLogout => logout via
  end.

(** The session observed after each call of a sequence has settled, each call
    awaited before the next starts. *)
Fixpoint sessions_after (via : Persistence) (ops : list Op) (w : World)
    : list AuthState :=
  match ops with
  | [] => []
  | op :: rest =>
      let w' := snd (exec via op w) in
      session w' :: sessions_after via rest w'
  end.

(** Worlds the store can be in: process start, then any store operations. *)
Inductive reachable (via : Persistence) : World -> Prop :=
| reachable_boot os secure local faults net n :
    reachable via (boot os secure local faults net n)
| reachable_exec w op :
    reachable via w -> reachable via (snd (exec via op w)).

(** "The token is present" and the invariant the specification asks for. *)
Definition token_present (s : AuthState) : bool := Js.truthy (token s).

Definition authenticated_iff_token (s : AuthState) : Prop :=
  isAuthenticated s = true <-> token_present s = true.

(** The next [n] platform storage operations do not fault. *)
Definition calm (n : nat) (w : World) : Prop :=
  Forall (fun b => b = false) (take n (ioFaults w)).

Definition sample_user : User :=
  mkUser "u1" "ada@example.org" "Ada" None None None None 0 [] false "2024-01-01".

Definition offline : Config -> Reply := fun _ => Unreachable.

Definition always (r : Response) : Config -> Reply := fun _ => Replied r.

(** ** Vocabulary of the statements *)

(** The requests a world has sent, oldest first. *)
Definition sent (w : World) : list Config :=
  omap (fun e => match e with Sent c => Some c | _ => None end) (trace w).

Definition unauthorized (c : Config) : Reason :=
  RequestFailed (mkAxiosError c (Some (mkResponse 401 None))).

(** What the event loop leaves alone. *)
Definition same_platform (w w' : World) : Prop :=
  platform w' = platform w /\ secureStore w' = secureStore w /\
  localStorage w' = localStorage w /\ ioFaults w' = ioFaults w /\
  network w' = network w /\ unhandled w' = unhandled w.

(** Segments on which an authenticated user is left alone: the tabbed group
    and the detail routes reachable from it. *)
Definition authenticated_segments : list string :=
  ["(tabs)"; "post"; "forum"; "group"; "resources"; "premium"]%string.

(** The state update an operation makes when it completes. *)
Definition update_of (op : Op) : Partial :=
  match op with
  | OpSetUser u => setUser_update u
  | OpSetToken t => setToken_update t
  | OpSetLoading b => setLoading_update b
  | OpLogin t u => login_update t u
  | OpLogout => logout_update
  end.

(** The calls of the sequences the invariant is stated for. *)
Definition session_call (op : Op) : Prop :=
  match op with
  | OpLogin _ _ | OpLogout | OpSetToken _ => True
  | OpSetUser _ | OpSetLoading _ => False
  end.

Definition login_token_nonempty (op : Op) : Prop :=
  match op with
  | OpLogin t _ => t <> EmptyString
  | _ => True
  end.

(** An invariant of the world kept by an asynchronous computation. *)
Definition preserves {A : Type} (I : World -> Prop) (m : Async A) : Prop :=
  forall w, I w -> I (snd (m w)).

(** No update in flight touches [isLoading]. *)
Definition quiet (w : World) : Prop :=
  Forall (fun p => p_isLoading p = None) (pending w).

(** ** Further vocabulary *)

(** The calls a client of [storage] can make. *)
Inductive StorageCall : Type :=
| CallGetItem (key : string)
| CallSetItem (key value : string)
| CallDeleteItem (key : string).

Definition storage_call (c : StorageCall) : Async (option string) :=
  match c with
  | CallGetItem key => storage.getItem key
  | CallSetItem key value => (storage.setItem key value ;; resolve None)%async
  | CallDeleteItem key => (storage.deleteItem key ;; resolve None)%async
  end.

(** A world whose platform, stores and oracle are the given ones. *)
Definition stores_are (w : World) (os : OS) (secure local : gmap string string)
    (faults : list bool) : Prop :=
  platform w = os /\ secureStore w = secure /\ localStorage w = local /\
  ioFaults w = faults.

(** The stores after a write or a delete through [storage]: the area of the
    platform changes, the other one does not. *)
Definition secure_after (w : World) (f : gmap string string -> gmap string string)
    : gmap string string :=
  if is_web (platform w) then secureStore w else f (secureStore w).

Definition local_after (w : World) (f : gmap string string -> gmap string string)
    : gmap string string :=
  if is_web (platform w) then f (localStorage w) else localStorage w.

(** The worlds after each call of a sequence has settled. *)
Fixpoint worlds_after (via : Persistence) (ops : list Op) (w : World)
    : list World :=
  match ops with
  | [] => []
  | op :: rest =>
      let w' := snd (exec via op w) in
      w' :: worlds_after via rest w'
  end.

(** The persisted token is the in-memory token when that one is present, and
    there is no persisted token when it is not. *)
Definition persisted_matches_memory (via : Persistence) (w : World) : Prop :=
  contents (area_of via w) w !! auth_token =
    (if Js.truthy (token (session w)) then token (session w) else None).

(** The guard effect of the root layout, on the store's current state. *)
Definition guard (w : World) (segments : list string) : list Navigation :=
  routeGuard (isLoading (session w)) (isAuthenticated (session w)) segments.

(** [segments[0]] is one of the given segments. *)
Definition first_segment_in (segments allowed : list string) : bool :=
  existsb (segment_is segments) allowed.

(** ** The profile screen (app/(tabs)/profile.tsx) *)

(** The screen's own state: the [isLoggingOut] flag and what it asked the
    router to do. *)
Record ProfileScreen : Type := mkProfileScreen {
  isLoggingOut : bool;
  navigations : list Navigation
}.

(** [performLogout], the [try] block with its [catch] (lines 45-51): the
    backend logout, whose failure is only logged. *)
Definition performLogout_remote : Async unit :=
  try_catch (await authAPI.logout ;; resolve tt)%async (fun error => resolve tt).

(** [performLogout] (lines 44-58): [setIsLoggingOut(true)], the backend
    logout, and in the [finally] block the local [logout()], then
    [setIsLoggingOut(false)] and [router.replace('/')]. *)
Definition performLogout (via : Persistence) (ui : ProfileScreen) (w : World)
    : Settled unit * ProfileScreen * World :=
  let ui1 := mkProfileScreen true (navigations ui) in
  let w1 := snd (performLogout_remote w) in
  match await (logout via) w1 with
  | (Fulfilled _, w2) =>
      (Fulfilled tt, mkProfileScreen false (navigations ui1 ++ [replace "/"]), w2)
  | (Rejected e, w2) => (Rejected e, ui1, w2)
  end.

From Stdlib Require Import Ascii.

(** ** The session-data exchange (src/services/api.ts, lines 49-52)

    [authAPI.getSessionData] calls [axios.get] itself, not the [api]
    instance, with the absolute URL of the same endpoint tree; [url] is, as
    for [api], the path below [API_URL/api]. No interceptor sees the request
    or its outcome. *)
Definition getSessionData (sessionId : string) : Async Response :=
  dispatchRequest
    (mkConfig GET "/auth/session-data" {[ "X-Session-ID"%string := sessionId ]} []).

(** ** The landing screen (app/index.tsx) *)

(** [String.prototype.split] with a string separator, read left to right:
    [skip] characters of a separator just found are still to be passed over,
    [piece] is the piece collected so far. *)
Fixpoint split_from (sep : string) (skip : nat) (piece s : string) : list string :=
  match s with
  | EmptyString => [piece]
  | String c s' =>
      match skip with
      | S k => split_from sep k piece s'
      | O =>
          if String.prefix sep s
          then piece :: split_from sep (String.length sep - 1) EmptyString s'
          else split_from sep O (piece +:+ String c EmptyString) s'
      end
  end.

(** With the empty separator [split] cuts between all characters. *)
Fixpoint characters (s : string) : list string :=
  match s with
  | EmptyString => []
  | String c s' => String c EmptyString :: characters s'
  end.

Definition split (sep s : string) : list string :=
  if decide (sep = EmptyString) then characters s
  else split_from sep O EmptyString s.

(** [a || b] on [string | undefined]. *)
Definition or_else (a b : option string) : option string :=
  if Js.truthy a then a else b.

(** [handleGoogleLogin], line 48:
    [url.split('#session_id=')[1] || url.split('?session_id=')[1]]. *)
Definition sessionId_of (url : string) : option string :=
  or_else (split "#session_id=" url !! 1%nat) (split "?session_id=" url !! 1%nat).

(** The character occurs in the string. *)
Fixpoint occurs (c : ascii) (s : string) : bool :=
  match s with
  | EmptyString => false
  | String c' s' => bool_decide (c = c') || occurs c s'
  end.

(** ** Push notifications (src/utils/notifications.ts) *)

Module Notifications.

(** What expo-notifications answers to the three calls of
    [registerForPushNotificationsAsync]: the [status] of the two permission
    calls and the [data] of the push token; [None] is a call that throws. *)
Record Answers : Type := mkAnswers {
  getPermissionsAsync : option string;
  requestPermissionsAsync : option string;
  getExpoPushTokenAsync : option string
}.

Inductive Call : Type := GetPermissions | RequestPermissions | GetExpoPushToken.

End Notifications.

(** [Platform.OS] *)
Definition os_name (os : OS) : string :=
  match os with
  | ios => "ios"
  | android => "android"
  | web => "web"
  end.

Module notificationAPI.

Definition registerToken (token platform : string) : Async Response :=
  api.post "/notifications/register-token"
    [("token"%string, token); ("platform"%string, platform)].

End notificationAPI.

(** [registerForPushNotificationsAsync] from the test of [finalStatus] on
    (lines 55-71). The function as a whole is one [try] whose [catch] logs
    and returns [null]: every call that throws and the rejection of the
    registration end in [None]. Beside its result the function yields the
    calls it made to expo-notifications. *)
Definition register_with_status (N : Notifications.Answers) (finalStatus : string)
    (calls : list Notifications.Call) (w : World)
    : option string * list Notifications.Call * World :=
  if decide (finalStatus <> "granted"%string) then (None, calls, w)
  else
    let calls' := calls ++ [Notifications.GetExpoPushToken] in
    let w1 := tick w in
    match Notifications.getExpoPushTokenAsync N with
    | None => (None, calls', w1)
    | Some token =>
        match await (notificationAPI.registerToken token (os_name (platform w1))) w1 with
        | (Fulfilled _, w2) => (Some token, calls', w2)
        | (Rejected _, w2) => (None, calls', w2)
        end
    end.

(** Lines 45-75. Each [await] of a call to expo-notifications is a
    suspension. *)
Definition registerForPushNotificationsAsync (N : Notifications.Answers) (w : World)
    : option string * list Notifications.Call * World :=
  let w1 := tick w in
  match Notifications.getPermissionsAsync N with
  | None => (None, [Notifications.GetPermissions], w1)
  | Some existingStatus =>
      if decide (existingStatus <> "granted"%string) then
        let w2 := tick w1 in
        match Notifications.requestPermissionsAsync N with
        | None =>
            (None, [Notifications.GetPermissions; Notifications.RequestPermissions], w2)
        | Some status =>
            register_with_status N status
              [Notifications.GetPermissions; Notifications.RequestPermissions] w2
        end
      else register_with_status N existingStatus [Notifications.GetPermissions] w1
  end.

(** The permission the function ends up with. *)
Definition push_permission_granted (N : Notifications.Answers) : Prop :=
  Notifications.getPermissionsAsync N = Some "granted"%string \/
  (exists s, Notifications.getPermissionsAsync N = Some s /\ s <> "granted"%string /\
             Notifications.requestPermissionsAsync N = Some "granted"%string).

(** ** The image helpers (src/utils/imageHelper.ts) *)

Module ImagePicker.

Record Asset : Type := mkAsset { base64 : option string }.

Record Result : Type := mkResult {
  canceled : bool;
  assets : list Asset
}.

(** What expo-image-picker answers to the permission request (its [status])
    and to the launch of the library or the camera; [None] is a call that
    throws. *)
Record Answers : Type := mkAnswers {
  requestPermissionsAsync : option string;
  launchAsync : option Result
}.

End ImagePicker.

Inductive Alert : Type := alert (title message : string).

(** What a run of a helper did: the value it returned, the alerts it raised
    and whether it opened the picker. *)
Record Picked : Type := mkPicked {
  image : option string;
  alerts : list Alert;
  launched : bool
}.

(** Lines 130-136: [!result.canceled && result.assets[0].base64], the data
    URL when that holds and [null] when not. [None] is the [TypeError] of
    reading [base64] off [undefined]. *)
Definition data_url (result : ImagePicker.Result) : option (option string) :=
  if negb (ImagePicker.canceled result) then
    match ImagePicker.assets result with
    | [] => None
    | a :: _ =>
        match ImagePicker.base64 a with
        | Some b =>
            if Js.truthy_string b
            then Some (Some ("data:image/jpeg;base64," +:+ b))
            else Some None
        | None => Some None
        end
    end
  else Some None.

(** The body [pickImage] and [takePhoto] share; they differ in the calls to
    the picker and in the two messages. *)
Definition pick (permissionMessage failureMessage : string)
    (P : ImagePicker.Answers) : Picked :=
  match ImagePicker.requestPermissionsAsync P with
  | None => mkPicked None [alert "Error" failureMessage] false
  | Some status =>
      if decide (status <> "granted"%string)
      then mkPicked None [alert "Permission Required" permissionMessage] false
      else
        match ImagePicker.launchAsync P with
        | None => mkPicked None [alert "Error" failureMessage] true
        | Some result =>
            match data_url result with
            | Some v => mkPicked v [] true
            | None => mkPicked None [alert "Error" failureMessage] true
            end
        end
  end.

(** Lines 109-139. *)
Definition pickImage : ImagePicker.Answers -> Picked :=
  pick "Please grant photo library permissions to select images."
       "Failed to pick image".

(** Lines 141-170. *)
Definition takePhoto : ImagePicker.Answers -> Picked :=
  pick "Please grant camera permissions to take photos."
       "Failed to take photo".

(** ** The post editor (app/(tabs)/create.tsx) *)

(** [handlePickImage] and [handleTakePhoto] (lines 37-49):
    [if (image) setImages([...images, image])]. *)
Definition add_image (images : list string) (picked : option string) : list string :=
  if Js.truthy picked then images ++ option_list picked else images.

(** [images.filter((_, i) => i !== index)] (line 52), the position counted
    from [i]. *)
Fixpoint filter_index_from (i index : nat) (images : list string) : list string :=
  match images with
  | [] => []
  | x :: rest =>
      if decide (i <> index) then x :: filter_index_from (S i) index rest
      else filter_index_from (S i) index rest
  end.

Definition handleRemoveImage (index : nat) (images : list string) : list string :=
  filter_index_from 0 index images.

(** *** The tags field (line 63)

    [tags.split(',').map((t) => t.trim()).filter(Boolean)]. [trim] depends on
    which characters are white space, so the text is taken as JavaScript has
    it, a sequence of UTF-16 code units. *)

Definition comma : N := 44%N.

(** ECMAScript's WhiteSpace and LineTerminator code points, all of them
    single code units. *)
Definition is_white_space (c : N) : bool :=
  bool_decide (c ∈ [9; 10; 11; 12; 13; 32; 160; 5760; 8232; 8233; 8239; 8287;
                    12288; 65279]%N)
  || ((8192 <=? c)%N && (c <=? 8202)%N).

(** [s.split(',')], [piece] being the piece collected so far. *)
Fixpoint split_comma (piece s : list N) : list (list N) :=
  match s with
  | [] => [piece]
  | c :: s' =>
      if decide (c = comma) then piece :: split_comma [] s'
      else split_comma (piece ++ [c]) s'
  end.

Fixpoint trimStart (s : list N) : list N :=
  match s with
  | [] => []
  | c :: s' => if is_white_space c then trimStart s' else s
  end.

Definition trimEnd (s : list N) : list N := reverse (trimStart (reverse s)).

Definition trim (s : list N) : list N := trimEnd (trimStart s).

Definition tagsArray (tags : list N) : list (list N) :=
  filter (fun t => t <> []) (trim <$> split_comma [] tags).

(** A tag as the backend is meant to receive it: not empty, free of commas,
    no white space at either end. *)
Definition clean_tag (t : list N) : Prop :=
  t <> [] /\ (comma ∉ t) /\
  (forall c, head t = Some c -> is_white_space c = false) /\
  (forall c, last t = Some c -> is_white_space c = false).

(** The text a user types for a list of tags: the tags with [sep] between
    them. *)
Fixpoint join (sep : list N) (tags : list (list N)) : list N :=
  match tags with
  | [] => []
  | [t] => t
  | t :: rest => t ++ sep ++ join sep rest
  end.

(** * Properties *)

(** Case analysis on the next oracle entries under a [calm] hypothesis: the
    faulting case is closed, the others continue with the rest of the tape. *)
Ltac calm_next H faults :=
  destruct faults as [|[] faults]; simpl in H;
  [ | by apply Forall_cons_1 in H as [? _] | apply Forall_cons_1 in H as [_ H] ].

Ltac store_lookups :=
  rewrite ?lookup_insert_eq, ?lookup_delete_eq;
  rewrite <- ?app_assoc; simpl.

(** ** The event loop and the fault oracle *)

Lemma calm_head (n : nat) (w : World) :
  calm (S n) w -> head (ioFaults w) <> Some true.
Proof.
  unfold calm. destruct (ioFaults w) as [|b l]; simpl; [done|].
  intros H%Forall_cons_1. destruct H as [-> _]. done.
Qed.

Lemma platform_io_calm {A : Type} (a : Area) (ok : World -> A * World) (w : World) :
  calm 1 w ->
  platform_io a ok w =
    (Fulfilled (ok (with_ioFaults (tail (ioFaults w)) w)).1,
     (ok (with_ioFaults (tail (ioFaults w)) w)).2).
Proof.
  intros H%calm_head. unfold platform_io.
  destruct (head (ioFaults w)) as [[]|]; try done;
    by destruct (ok _).
Qed.

(** ** Session store operations *)

(** C5. For every token [t] and user [u], [login t u] first writes [t] under
    the token key and then makes exactly one state update, which sets
    [token = t], [user = u], [isAuthenticated = true] and
    [isLoading = false]; afterwards the token key of the persisted store
    holds [t] and a read of it returns [t]. The write and the read are
    assumed not to fault, and no un-awaited promise to be in flight. *)
Theorem login_persists_then_updates
    (via : Persistence) (t : string) (u : User) (w : World) :
  pending w = [] -> calm 2 w ->
  exists w',
    login via t u w = (Fulfilled tt, w') /\
    trace w' =
      trace w ++ [Wrote (area_of via w) auth_token t; Updated (login_update t u)] /\
    session w' =
      {| user := Some u; token := Some t;
         isLoading := false; isAuthenticated := true |} /\
    contents (area_of via w') w' !! auth_token = Some t /\
    fst (persist_get via auth_token w') = Fulfilled (Some t).
Proof.
  destruct w as [os sec loc faults net s q n unh tr]. simpl.
  intros -> H. unfold calm in H. simpl in H.
  calm_next H faults; [|calm_next H faults].
  all: destruct via, os; eexists; (split; [reflexivity|]); cbn.
  all: store_lookups; by repeat split.
Qed.

Lemma login_persists_then_updates_witness :
  exists w',
    login ViaStorage "abc" sample_user (boot web ∅ ∅ [false] offline 0)
      = (Fulfilled tt, w') /\
    trace w' = [Wrote Local auth_token "abc";
                Updated (login_update "abc" sample_user)] /\
    session w' =
      {| user := Some sample_user; token := Some "abc"%string;
         isLoading := false; isAuthenticated := true |} /\
    contents (area_of ViaStorage w') w' !! auth_token = Some "abc"%string /\
    fst (persist_get ViaStorage auth_token w') = Fulfilled (Some "abc"%string).
Proof.
  apply (login_persists_then_updates ViaStorage "abc" sample_user
           (boot web ∅ ∅ [false] offline 0)).
  - reflexivity.
  - unfold calm. simpl. by repeat constructor.
Defined.

(** C6. For every session state, [logout] first deletes the persisted token
    and then makes one state update that clears [token] and [user] and sets
    [isAuthenticated = false]; [isLoading] keeps its value, and afterwards a
    read of the token key returns absent. The delete and the read are
    assumed not to fault, and no un-awaited promise to be in flight. *)
Theorem logout_deletes_then_clears (via : Persistence) (w : World) :
  pending w = [] -> calm 2 w ->
  exists w',
    logout via w = (Fulfilled tt, w') /\
    trace w' =
      trace w ++ [Removed (area_of via w) auth_token; Updated logout_update] /\
    session w' =
      {| user := None; token := None;
         isLoading := isLoading (session w); isAuthenticated := false |} /\
    contents (area_of via w') w' !! auth_token = None /\
    fst (persist_get via auth_token w') = Fulfilled None.
Proof.
  destruct w as [os sec loc faults net s q n unh tr]. simpl.
  intros -> H. unfold calm in H. simpl in H.
  calm_next H faults; [|calm_next H faults].
  all: destruct via, os; eexists; (split; [reflexivity|]); cbn.
  all: store_lookups; by repeat split.
Qed.

Lemma logout_deletes_then_clears_witness :
  exists w',
    logout DirectSecureStore
      (snd (login DirectSecureStore "abc" sample_user
              (boot ios ∅ ∅ [] offline 0)))
      = (Fulfilled tt, w') /\
    trace w' =
      [Wrote Secure auth_token "abc"; Updated (login_update "abc" sample_user)]
      ++ [Removed Secure auth_token; Updated logout_update] /\
    session w' =
      {| user := None; token := None;
         isLoading := false; isAuthenticated := false |} /\
    contents (area_of DirectSecureStore w') w' !! auth_token = None /\
    fst (persist_get DirectSecureStore auth_token w') = Fulfilled None.
Proof.
  apply (logout_deletes_then_clears DirectSecureStore
           (snd (login DirectSecureStore "abc" sample_user
                   (boot ios ∅ ∅ [] offline 0)))).
  - reflexivity.
  - unfold calm. simpl. constructor.
Defined.

(** ** The API client's interceptors *)

Lemma sent_log (e : Effect) (w : World) :
  sent (log e w) = sent w ++ match e with Sent c => [c] | _ => [] end.
Proof.
  unfold sent, log. destruct w; simpl. rewrite omap_app. simpl.
  by destruct e.
Qed.

Lemma sent_run_pending (w : World) : sent (run_pending w) = sent w.
Proof.
  unfold run_pending.
  assert (sent (with_pending [] w) = sent w) as <- by by destruct w.
  generalize (with_pending [] w). induction (pending w) as [|p q IH]; [done|].
  intros w0. simpl. rewrite IH. unfold apply_update. rewrite sent_log.
  destruct w0; simpl. by rewrite app_nil_r.
Qed.

Lemma sent_tick (w : World) : sent (tick w) = sent w.
Proof.
  unfold tick. destruct (pending w); [done|].
  destruct (patience w); [apply sent_run_pending|by destruct w].
Qed.

(** The interceptors as the file has them: with [SecureStore] unbound, the
    request interceptor rejects before it has looked at anything, and so
    does every call through the client. *)
Lemma request_onFulfilled_throws (config : Config) (w : World) :
  api.request_onFulfilled config w = (Rejected (ReferenceError "SecureStore"), w).
Proof. reflexivity. Qed.

Lemma response_onRejected_world (error : Reason) (w : World) :
  snd (api.response_onRejected error w) = w.
Proof. unfold api.response_onRejected. by case_decide. Qed.

Lemma request_throws (config : Config) (w : World) :
  api.request config w = (Rejected (ReferenceError "SecureStore"), w).
Proof. reflexivity. Qed.

(** C7. The response interceptor handed a failure whose response carries
    status 401: the handler names [SecureStore], which the module does not
    bind, so it throws. It rejects with the ReferenceError -- not with the
    failure it received -- and the world is as before: nothing is deleted
    from either store. *)
Theorem response_401_throws_ReferenceError (error : Reason) (w : World) :
  response_status error = Some 401 ->
  api.response_onRejected error w = (Rejected (ReferenceError "SecureStore"), w) /\
  error <> ReferenceError "SecureStore".
Proof.
  intros Hst. unfold api.response_onRejected. rewrite decide_True by done.
  split; [reflexivity|]. by intros ->.
Qed.

Lemma response_401_throws_ReferenceError_witness :
  let w := boot ios {[ auth_token := "abc"%string ]} ∅ [] offline 0 in
  let error := unauthorized (mkConfig GET "/posts" api.default_headers []) in
  fst (api.response_onRejected error w) = Rejected (ReferenceError "SecureStore") /\
  fst (api.response_onRejected error w) <> Rejected error /\
  secureStore (snd (api.response_onRejected error w)) !! auth_token =
    Some "abc"%string.
Proof.
  intros w error.
  destruct (response_401_throws_ReferenceError error w) as [-> Hne];
    [reflexivity|].
  split_and!; [reflexivity|by intros [= <-]|reflexivity].
Defined.

(** C8. Every request through the client, whatever it is and whatever the
    stores hold: the request interceptor throws on [SecureStore] before it
    reads the persisted token. No [Authorization] header is attached, the
    transport is never reached, so no request is sent, with or without the
    header, and the caller gets the ReferenceError. *)
Theorem request_interceptor_throws (config : Config) (w : World) :
  api.request_onFulfilled config w = (Rejected (ReferenceError "SecureStore"), w) /\
  api.request config w = (Rejected (ReferenceError "SecureStore"), w) /\
  sent (snd (api.request config w)) = sent w.
Proof.
  split_and!; [apply request_onFulfilled_throws|apply request_throws|].
  by rewrite request_throws.
Qed.

(** C8 at the failing input: the profile request on a device whose store
    holds the token ["abc"], the backend ready to serve it. *)
Lemma request_interceptor_throws_witness :
  let w := boot android {[ auth_token := "abc"%string ]} ∅ []
             (always (mkResponse 200 (Some sample_user))) 0 in
  fst (authAPI.getMe w) = Rejected (ReferenceError "SecureStore") /\
  sent (snd (authAPI.getMe w)) = [].
Proof.
  intros w.
  destruct (request_interceptor_throws
              (mkConfig GET "/auth/me" api.default_headers []) w)
    as (_ & H & Hs).
  unfold authAPI.getMe, api.get. rewrite Hs. by rewrite H.
Defined.


Lemma run_pending_same_platform (w : World) : same_platform w (run_pending w).
Proof.
  unfold run_pending.
  assert (same_platform w (with_pending [] w)) as H by by destruct w.
  revert H. generalize (with_pending [] w).
  induction (pending w) as [|p q IH]; [done|].
  intros w0 H. simpl. apply IH.
  destruct w, w0. unfold same_platform in *. simpl in *. done.
Qed.

Lemma tick_same_platform (w : World) : same_platform w (tick w).
Proof.
  unfold tick. destruct (pending w); [by destruct w|].
  destruct (patience w); [apply run_pending_same_platform|by destruct w].
Qed.

(** C10. A password login that the backend would answer with 401, a stale
    token being left in the persisted store: the request interceptor throws,
    the login request never leaves the client, the 401 never arrives, and
    the stale token stays where it is; the caller sees the ReferenceError.
    And were a 401 failure handed to the response interceptor, whatever
    request it answers, the world would be as before it too. *)
Theorem login_401_keeps_stale_token (email password : string) (w : World) :
  authAPI.login email password w = (Rejected (ReferenceError "SecureStore"), w) /\
  (forall (c : Config) (r : Response), status r = 401 ->
     snd (api.response_onRejected (RequestFailed (mkAxiosError c (Some r))) w) = w).
Proof.
  split; [reflexivity|]. intros c r _. apply response_onRejected_world.
Qed.

Lemma login_401_keeps_stale_token_witness :
  let w := boot ios {[ auth_token := "stale"%string ]} ∅ []
             (always (mkResponse 401 None)) 0 in
  let out := authAPI.login "ada@example.org" "wrong" w in
  fst out = Rejected (ReferenceError "SecureStore") /\
  sent (snd out) = [] /\
  secureStore (snd out) !! auth_token = Some "stale"%string.
Proof.
  intros w out. subst out.
  destruct (login_401_keeps_stale_token "ada@example.org" "wrong" w) as [-> _].
  split_and!; reflexivity.
Defined.

(** ** The route guard *)

Lemma segment_is_true (segments : list string) (s : string) :
  segments !! 0%nat = Some s -> segment_is segments s = true.
Proof. intros H. unfold segment_is. by apply bool_decide_eq_true. Qed.

Lemma segment_is_false (segments : list string) (s : string) :
  segments !! 0%nat <> Some s -> segment_is segments s = false.
Proof. intros H. unfold segment_is. by apply bool_decide_eq_false. Qed.

(** C4. As a function of [isLoading], [isAuthenticated] and the first
    segment, the route guard navigates nowhere while [isLoading]; once
    loading is over it replaces the location by the landing screen exactly
    once when unauthenticated outside the ["(auth)"] group, by the tabbed
    group's default screen exactly once when authenticated on a segment that
    is neither ["(tabs)"] nor one of post, forum, group, resources, premium,
    and navigates nowhere otherwise. *)
Theorem routeGuard_decisions (isAuthenticated : bool) (segments : list string) :
  routeGuard true isAuthenticated segments = [] /\
  (segments !! 0%nat <> Some "(auth)"%string ->
   routeGuard false false segments = [replace "/"]) /\
  (segments !! 0%nat = Some "(auth)"%string ->
   routeGuard false false segments = []) /\
  ((forall s, s ∈ authenticated_segments -> segments !! 0%nat <> Some s) ->
   routeGuard false true segments = [replace "/(tabs)"]) /\
  ((exists s, s ∈ authenticated_segments /\ segments !! 0%nat = Some s) ->
   routeGuard false true segments = []).
Proof.
  split; [done|]. split; [|split; [|split]].
  - intros H. unfold routeGuard. by rewrite (segment_is_false _ _ H).
  - intros H. unfold routeGuard. by rewrite (segment_is_true _ _ H).
  - intros H. unfold routeGuard. cbn [negb andb].
    assert (forall s, s ∈ authenticated_segments -> segment_is segments s = false)
      as Hf by (intros s Hs; apply segment_is_false, H, Hs).
    unfold authenticated_segments in Hf.
    rewrite !Hf; [done|repeat constructor..].
  - intros (s & Hs & H). unfold routeGuard, authenticated_segments in *.
    repeat (apply elem_of_cons in Hs as [->|Hs];
            [rewrite (segment_is_true _ _ H); simpl;
             rewrite ?andb_false_r; reflexivity|]).
    by apply elem_of_nil in Hs.
Qed.

Lemma routeGuard_decisions_witness :
  routeGuard false true ["(auth)"%string; "login"%string] = [replace "/(tabs)"] /\
  routeGuard false true ["premium"%string] = [] /\
  routeGuard false false ["(tabs)"%string] = [replace "/"].
Proof.
  split; [|split].
  - apply (routeGuard_decisions true ["(auth)"%string; "login"%string]).
    intros s Hs. unfold authenticated_segments in Hs. simpl.
    repeat (apply elem_of_cons in Hs as [->|Hs]; [discriminate|]).
    by apply elem_of_nil in Hs.
  - apply (routeGuard_decisions true ["premium"%string]).
    exists "premium"%string. split; [|reflexivity].
    unfold authenticated_segments. repeat constructor.
  - apply (routeGuard_decisions false ["(tabs)"%string]). simpl. discriminate.
Defined.

(** ** The invariant between [isAuthenticated] and [token] *)

(** A store operation either completes, having merged its one update into
    the state, or rejects on a persistence fault before touching the state. *)
Lemma exec_settles (via : Persistence) (op : Op) (w : World) :
  pending w = [] ->
  pending (snd (exec via op w)) = [] /\
  match fst (exec via op w) with
  | Fulfilled _ => session (snd (exec via op w)) = merge (update_of op) (session w)
  | Rejected _ => session (snd (exec via op w)) = session w
  end.
Proof.
  destruct w as [os sec loc faults net s q n unh tr]. simpl. intros ->.
  destruct op as [u|[t|]|b|t u|]; simpl;
    unfold setToken, setToken_persist, login, logout;
    try destruct (Js.truthy_string t);
    destruct via, os, faults as [|[] faults]; by cbn.
Qed.

Lemma reachable_pending (via : Persistence) (w : World) :
  reachable via w -> pending w = [].
Proof.
  induction 1 as [|w op _ IH]; [done|].
  by apply exec_settles.
Qed.

Lemma truthy_string_nonempty (t : string) :
  t <> EmptyString -> Js.truthy_string t = true.
Proof. intros H. unfold Js.truthy_string. by rewrite decide_False. Qed.

Lemma session_call_invariant (op : Op) (s : AuthState) :
  session_call op -> login_token_nonempty op ->
  authenticated_iff_token (merge (update_of op) s).
Proof.
  unfold authenticated_iff_token, token_present.
  destruct op as [u|t|b|t u|]; simpl; try done.
  intros _ H. by rewrite truthy_string_nonempty.
Qed.

(** C1 (as amended). For every reachable state of the session store and
    every store operation: an operation that rejects leaves the state as it
    was; when it completes, [setUser] has set [user] and recomputed
    [isAuthenticated] as "a user is present", leaving [token] and [isLoading]
    alone; [setLoading] has set [isLoading] and nothing else; and after
    [setToken], [logout] and [login] with a non-empty token,
    [isAuthenticated] is true exactly when the token is present in memory. *)
Theorem store_operation_effect_on_authenticated
    (via : Persistence) (op : Op) (w : World) :
  reachable via w ->
  match fst (exec via op w) with
  | Rejected _ => session (snd (exec via op w)) = session w
  | Fulfilled _ =>
      let s := session w in
      let s' := session (snd (exec via op w)) in
      match op with
      | OpSetUser u =>
          s' = {| user := u; token := token s; isLoading := isLoading s;
                  isAuthenticated := Js.truthy_obj u |}
      | OpSetLoading b =>
          s' = {| user := user s; token := token s; isLoading := b;
                  isAuthenticated := isAuthenticated s |}
      | OpLogin t _ => t <> EmptyString -> authenticated_iff_token s'
      | OpSetToken _ | OpLogout => authenticated_iff_token s'
      end
  end.
Proof.
  intros Hq%reachable_pending.
  destruct (exec_settles via op w Hq) as [_ H].
  destruct (fst (exec via op w)); [|done].
  cbv zeta. rewrite H.
  destruct op as [u|t|b|t u|]; try done.
  all: try intros Ht; by apply session_call_invariant.
Qed.

Lemma store_operation_effect_on_authenticated_witness :
  let w := snd (login ViaStorage "abc" sample_user (boot web ∅ ∅ [] offline 0)) in
  session (snd (exec ViaStorage (OpSetUser None) w)) =
    {| user := None; token := Some "abc"%string; isLoading := false;
       isAuthenticated := false |}.
Proof.
  intros w.
  apply (store_operation_effect_on_authenticated ViaStorage (OpSetUser None) w).
  apply (reachable_exec ViaStorage _ (OpLogin "abc" sample_user)).
  apply reachable_boot.
Defined.

(** C1 as stated fails. After a login, [setUser(null)] turns
    [isAuthenticated] off while the token stays in memory, and at process
    start [setUser(u)] turns it on with no token: [setUser] does recompute
    [isAuthenticated]. And a login with the empty string leaves
    [isAuthenticated] on with a token that is not present. *)
Lemma setUser_recomputes_isAuthenticated :
  let w0 := boot ios ∅ ∅ [] offline 0 in
  let w1 := snd (exec DirectSecureStore (OpLogin "abc" sample_user) w0) in
  let w2 := snd (exec DirectSecureStore (OpSetUser None) w1) in
  let w3 := snd (exec DirectSecureStore (OpSetUser (Some sample_user)) w0) in
  let w4 := snd (exec DirectSecureStore (OpLogin EmptyString sample_user) w0) in
  (reachable DirectSecureStore w1 /\
   isAuthenticated (session w1) = true /\
   token (session w2) = Some "abc"%string /\
   isAuthenticated (session w2) = false /\
   ~ authenticated_iff_token (session w2)) /\
  (reachable DirectSecureStore w0 /\
   token (session w3) = None /\
   isAuthenticated (session w3) = true /\
   ~ authenticated_iff_token (session w3)) /\
  (token (session w4) = Some EmptyString /\
   isAuthenticated (session w4) = true /\
   ~ authenticated_iff_token (session w4)).
Proof.
  cbv zeta. repeat split; try reflexivity.
  - apply (reachable_exec _ _ (OpLogin "abc" sample_user)), reachable_boot.
  - intros [_ H]. by specialize (H eq_refl).
  - apply reachable_boot.
  - intros [H _]. by specialize (H eq_refl).
  - intros [H _]. by specialize (H eq_refl).
Qed.

Lemma sessions_after_invariant (via : Persistence) (ops : list Op) (w : World) :
  pending w = [] -> authenticated_iff_token (session w) ->
  Forall session_call ops -> Forall login_token_nonempty ops ->
  Forall authenticated_iff_token (sessions_after via ops w).
Proof.
  revert w. induction ops as [|op ops IH]; intros w Hq Hinv Hc Hn; [constructor|].
  apply Forall_cons_1 in Hc as [Hc Hcs]. apply Forall_cons_1 in Hn as [Hn Hns].
  destruct (exec_settles via op w Hq) as [Hq' H].
  assert (authenticated_iff_token (session (snd (exec via op w)))) as Hinv'.
  { destruct (fst (exec via op w)); rewrite H; [|done].
    by apply session_call_invariant. }
  simpl. constructor; [done|]. by apply IH.
Qed.

(** C3 (as amended). For every finite sequence of [login], [logout] and
    [setToken] calls in which every [login] token is a non-empty string,
    started from the initial session state on any platform, whatever the
    stores hold and whichever storage operations fault: after each call has
    settled, [isAuthenticated] is true exactly when the in-memory token is
    present. *)
Theorem authenticated_iff_token_after_each_call
    (via : Persistence) (os : OS) (secure local : gmap string string)
    (faults : list bool) (net : Config -> Reply) (n : nat) (ops : list Op) :
  Forall session_call ops -> Forall login_token_nonempty ops ->
  Forall authenticated_iff_token
    (sessions_after via ops (boot os secure local faults net n)).
Proof.
  intros Hc Hn. apply sessions_after_invariant; try done.
Qed.

Lemma authenticated_iff_token_after_each_call_witness :
  Forall authenticated_iff_token
    (sessions_after ViaStorage
       [OpLogin "abc" sample_user; OpSetToken None; OpSetToken (Some "xyz"%string);
        OpLogout; OpSetToken (Some EmptyString)]
       (boot web ∅ ∅ [false; true] offline 0)).
Proof.
  apply authenticated_iff_token_after_each_call.
  - repeat constructor.
  - repeat constructor. discriminate.
Defined.

(** C3 as stated fails on the empty string. [setToken('')] and
    [login('', u)] both leave the empty string as the in-memory token, the
    first with [isAuthenticated = false], the second with
    [isAuthenticated = true]: no reading of "the token is present" makes
    [isAuthenticated] a function of the token over all call sequences. *)
Lemma empty_token_breaks_invariant :
  let w0 := boot ios ∅ ∅ [] offline 0 in
  let a := sessions_after DirectSecureStore [OpSetToken (Some EmptyString)] w0 in
  let b := sessions_after DirectSecureStore [OpLogin EmptyString sample_user] w0 in
  (token <$> a = [Some EmptyString] /\ isAuthenticated <$> a = [false]) /\
  (token <$> b = [Some EmptyString] /\ isAuthenticated <$> b = [true]) /\
  ~ Forall authenticated_iff_token b /\
  ~ (exists present : option string -> bool,
       forall ops, Forall session_call ops ->
         Forall (fun s => isAuthenticated s = present (token s))
                (sessions_after DirectSecureStore ops w0)).
Proof.
  cbv zeta. repeat split; try reflexivity.
  - intros H. apply Forall_cons_1 in H as [[H _] _]. by specialize (H eq_refl).
  - intros [present H].
    pose proof (H [OpSetToken (Some EmptyString)]) as Ha.
    pose proof (H [OpLogin EmptyString sample_user]) as Hb.
    apply Forall_cons_1 in Ha as [Ha _]; [|by repeat constructor].
    apply Forall_cons_1 in Hb as [Hb _]; [|by repeat constructor].
    vm_compute in Ha, Hb. congruence.
Qed.

(** ** Startup resolution *)

Section Preservation.

Context (I : World -> Prop).

Lemma preserves_resolve {A : Type} (a : A) : preserves I (resolve a).
Proof. by intros w. Qed.

Lemma preserves_reject {A : Type} (e : Reason) : preserves I (@reject A e).
Proof. by intros w. Qed.

Lemma preserves_bind {A B : Type} (m : Async A) (k : A -> Async B) :
  preserves I m -> (forall a, preserves I (k a)) -> preserves I (bind m k).
Proof.
  intros Hm Hk w Hw. unfold bind. specialize (Hm w Hw).
  destruct (m w) as [[a|e] w']; [by apply Hk|done].
Qed.

Lemma preserves_and_then {A B : Type} (m : Async A)
    (f : A -> Async B) (g : Reason -> Async B) :
  preserves I m -> (forall a, preserves I (f a)) -> (forall e, preserves I (g e)) ->
  preserves I (and_then m f g).
Proof.
  intros Hm Hf Hg w Hw. unfold and_then. specialize (Hm w Hw).
  destruct (m w) as [[a|e] w']; [by apply Hf|by apply Hg].
Qed.

Lemma preserves_try_catch {A : Type} (m : Async A) (h : Reason -> Async A) :
  preserves I m -> (forall e, preserves I (h e)) -> preserves I (try_catch m h).
Proof.
  intros Hm Hh w Hw. unfold try_catch. specialize (Hm w Hw).
  destruct (m w) as [[a|e] w']; [done|by apply Hh].
Qed.

Lemma preserves_await {A : Type} (m : Async A) :
  (forall w, I w -> I (tick w)) -> preserves I m -> preserves I (await m).
Proof.
  intros Ht Hm w Hw. unfold await. specialize (Hm w Hw).
  destruct (m w) as [r w']. by apply Ht.
Qed.

End Preservation.

Lemma quiet_pending (w w' : World) : pending w' = pending w -> quiet w -> quiet w'.
Proof. unfold quiet. by intros ->. Qed.

Lemma pending_fold_updates (q : list Partial) (w : World) :
  pending (fold_left apply_update q w) = pending w.
Proof.
  revert w. induction q as [|p q IH]; intros w; simpl; [done|].
  rewrite IH. by destruct w.
Qed.

Lemma pending_run_pending (w : World) : pending (run_pending w) = [].
Proof. unfold run_pending. rewrite pending_fold_updates. by destruct w. Qed.

Lemma quiet_tick (w : World) : quiet w -> quiet (tick w).
Proof.
  unfold tick. intros H. destruct (pending w) as [|p q] eqn:Hq; [done|].
  destruct (patience w).
  - unfold quiet. rewrite pending_run_pending. constructor.
  - apply (quiet_pending w); [by destruct w|done].
Qed.

Lemma quiet_platform_io {A : Type} (a : Area) (ok : World -> A * World) :
  (forall w, pending (snd (ok w)) = pending w) ->
  preserves quiet (platform_io a ok).
Proof.
  intros Hok w Hw. unfold platform_io.
  destruct (head (ioFaults w)) as [[]|].
  2,3: specialize (Hok (with_ioFaults (tail (ioFaults w)) w));
       destruct (ok _) as [x w']; simpl in *;
       apply (quiet_pending w); [rewrite Hok; by destruct w|done].
  simpl. apply (quiet_pending w); [by destruct w|done].
Qed.

Lemma quiet_SecureStore_get (key : string) :
  preserves quiet (SecureStore.getItemAsync key).
Proof. apply quiet_platform_io. intros w. by destruct w. Qed.

Lemma quiet_SecureStore_set (key value : string) :
  preserves quiet (SecureStore.setItemAsync key value).
Proof. apply quiet_platform_io. intros w. by destruct w. Qed.

Lemma quiet_SecureStore_delete (key : string) :
  preserves quiet (SecureStore.deleteItemAsync key).
Proof. apply quiet_platform_io. intros w. by destruct w. Qed.

Lemma quiet_storage_get (key : string) : preserves quiet (storage.getItem key).
Proof.
  intros w Hw. unfold storage.getItem. destruct (is_web (platform w)).
  - revert w Hw. apply quiet_platform_io. intros w. by destruct w.
  - revert w Hw. apply preserves_await; [apply quiet_tick|apply quiet_SecureStore_get].
Qed.

Lemma quiet_storage_set (key value : string) :
  preserves quiet (storage.setItem key value).
Proof.
  intros w Hw. unfold storage.setItem. destruct (is_web (platform w)).
  - revert w Hw. apply quiet_platform_io. intros w. by destruct w.
  - revert w Hw. apply preserves_await; [apply quiet_tick|apply quiet_SecureStore_set].
Qed.

Lemma quiet_storage_delete (key : string) :
  preserves quiet (storage.deleteItem key).
Proof.
  intros w Hw. unfold storage.deleteItem. destruct (is_web (platform w)).
  - revert w Hw. apply quiet_platform_io. intros w. by destruct w.
  - revert w Hw. apply preserves_await; [apply quiet_tick|apply quiet_SecureStore_delete].
Qed.

Lemma quiet_set (p : Partial) : preserves quiet (set p).
Proof. intros w Hw. apply (quiet_pending w); [by destruct w|done]. Qed.

Lemma quiet_setToken_persist (via : Persistence) (t : option string) :
  preserves quiet (setToken_persist via t).
Proof.
  unfold setToken_persist, persist_set, persist_delete.
  destruct t as [s|]; [destruct (Js.truthy_string s)|]; destruct via;
    auto using quiet_SecureStore_set, quiet_SecureStore_delete,
               quiet_storage_set, quiet_storage_delete.
Qed.

Lemma quiet_detached_setToken (via : Persistence) (t : option string) :
  preserves quiet (detached (setToken_persist via t) (setToken_update t)).
Proof.
  intros w Hw. unfold detached.
  pose proof (quiet_setToken_persist via t w Hw) as H.
  destruct (setToken_persist via t w) as [[[]|e] w']; simpl in *.
  - unfold quiet in *. destruct w'; simpl in *.
    apply Forall_app. split; [done|]. by repeat constructor.
  - apply (quiet_pending w'); [by destruct w'|done].
Qed.

Lemma quiet_request (config : Config) : preserves quiet (api.request config).
Proof. intros w Hw. by rewrite request_throws. Qed.

Lemma quiet_loadAuth_guarded (via : Persistence) :
  preserves quiet (loadAuth_guarded via).
Proof.
  unfold loadAuth_guarded. apply preserves_try_catch.
  - apply preserves_bind.
    + apply preserves_await; [apply quiet_tick|apply quiet_storage_get].
    + intros t. destruct (Js.truthy t); [|apply preserves_resolve].
      apply preserves_bind; [apply quiet_detached_setToken|]. intros _.
      apply preserves_bind.
      * apply preserves_await; [apply quiet_tick|apply quiet_request].
      * intros r. apply quiet_set.
  - intros e. apply preserves_try_catch.
    + apply preserves_await; [apply quiet_tick|apply quiet_storage_delete].
    + intros _. apply preserves_resolve.
Qed.

Lemma loadAuth_guarded_fulfils (via : Persistence) (w : World) :
  fst (loadAuth_guarded via w) = Fulfilled tt.
Proof.
  unfold loadAuth_guarded, try_catch.
  match goal with |- context [match ?m w with _ => _ end] => destruct (m w) as [[[]|e] w1] end;
    [done|].
  destruct (await (storage.deleteItem auth_token) w1) as [[[]|e'] w2]; done.
Qed.

Lemma run_pending_isLoading (w : World) :
  quiet w -> isLoading (session (run_pending w)) = isLoading (session w).
Proof.
  unfold run_pending, quiet. intros H.
  assert (isLoading (session (with_pending [] w)) = isLoading (session w)) as <-
    by by destruct w.
  generalize (with_pending [] w).
  induction H as [|p q Hp _ IH]; intros w0; [done|].
  simpl. rewrite IH. destruct w0; simpl. by rewrite Hp.
Qed.

(** Every startup run, on every platform, whatever the stores hold, whatever
    the backend answers and whichever storage operations fault: [loadAuth]'s
    own promise is fulfilled, and once everything has settled [isLoading] is
    false. *)
Lemma startup_reaches_not_loading
    (via : Persistence) (os : OS) (secure local : gmap string string)
    (faults : list bool) (net : Config -> Reply) (n : nat) :
  let w0 := boot os secure local faults net n in
  fst (loadAuth via w0) = Fulfilled tt /\
  isLoading (session (startup via w0)) = false.
Proof.
  intros w0. unfold startup, settle.
  unfold loadAuth, try_finally.
  pose proof (loadAuth_guarded_fulfils via w0) as Hf.
  pose proof (quiet_loadAuth_guarded via w0) as Hq.
  destruct (loadAuth_guarded via w0) as [r w1]. simpl in *.
  split; [done|].
  rewrite run_pending_isLoading.
  - by destruct w1.
  - apply (quiet_pending w1); [by destruct w1|]. apply Hq. constructor.
Qed.

(** The path of startup resolution with nothing to resume, on a native
    device: nothing is sent and the run ends unauthenticated. *)
Example startup_without_token (via : Persistence) (n : nat) :
  let w := startup via (boot ios ∅ ∅ [] offline n) in
  session w =
    {| user := None; token := None; isLoading := false; isAuthenticated := false |} /\
  sent w = [].
Proof. by destruct via. Qed.

(** C2, at the failing input: a native device whose store holds the token
    ["abc"], a backend that answers the profile request with 401, no storage
    fault. Whenever the event loop runs the continuation of the un-awaited
    [setToken], the run ends with the persisted token deleted, [user] absent
    and [isLoading = false], but with the token still in memory and
    [isAuthenticated = true]. *)
Lemma startup_401_stays_authenticated (via : Persistence) (n : nat) :
  let w := startup via
             (boot ios {[ auth_token := "abc"%string ]} ∅ []
                (always (mkResponse 401 None)) n) in
  session w =
    {| user := None; token := Some "abc"%string;
       isLoading := false; isAuthenticated := true |} /\
  secureStore w !! auth_token = None /\
  unhandled w = [] /\ pending w = [].
Proof.
  destruct via; do 8 (destruct n as [|n]; [by vm_compute|]); by vm_compute.
Qed.

(** C9, at the failing input: a native device whose store holds the token
    ["abc"], and a fault in the write that the un-awaited [setToken] makes.
    [loadAuth] is fulfilled and [isLoading] ends false, but the fault is
    caught by nobody: it is left as an unhandled rejection. The profile
    request then throws in the client's request interceptor, so the [catch]
    block deletes the persisted token, and since [setToken] never reached its
    state update the run ends with no token, no user and
    [isAuthenticated = false]. *)
Lemma startup_setToken_fault_unhandled (via : Persistence) (n : nat) :
  let w0 := boot ios {[ auth_token := "abc"%string ]} ∅ [false; true]
              (always (mkResponse 200 (Some sample_user))) n in
  fst (loadAuth via w0) = Fulfilled tt /\
  unhandled (startup via w0) = [IOFault Secure] /\
  session (startup via w0) =
    {| user := None; token := None;
       isLoading := false; isAuthenticated := false |} /\
  secureStore (startup via w0) !! auth_token = None.
Proof.
  destruct via; do 8 (destruct n as [|n]; [by vm_compute|]); by vm_compute.
Qed.

(** ** The key-value store (src/utils/storage.ts) *)

(** The event loop touches neither the platform nor the stores. *)
Lemma platform_tick (w : World) : platform (tick w) = platform w.
Proof. by destruct (tick_same_platform w) as (? & _). Qed.

Lemma secureStore_tick (w : World) : secureStore (tick w) = secureStore w.
Proof. by destruct (tick_same_platform w) as (_ & ? & _). Qed.

Lemma localStorage_tick (w : World) : localStorage (tick w) = localStorage w.
Proof. by destruct (tick_same_platform w) as (_ & _ & ? & _). Qed.

Lemma ioFaults_tick (w : World) : ioFaults (tick w) = ioFaults w.
Proof. by destruct (tick_same_platform w) as (_ & _ & _ & ? & _). Qed.

Lemma network_tick (w : World) : network (tick w) = network w.
Proof. by destruct (tick_same_platform w) as (_ & _ & _ & _ & ? & _). Qed.

Lemma unhandled_tick (w : World) : unhandled (tick w) = unhandled w.
Proof. by destruct (tick_same_platform w) as (_ & _ & _ & _ & _ & ?). Qed.

Ltac frame_tick :=
  rewrite ?platform_tick, ?secureStore_tick, ?localStorage_tick,
          ?ioFaults_tick, ?network_tick, ?unhandled_tick.

Lemma stores_are_calm (n : nat) (w w' : World) os sec loc :
  stores_are w' os sec loc (tail (ioFaults w)) -> calm (S n) w -> calm n w'.
Proof.
  intros (_ & _ & _ & Hf). unfold calm. rewrite Hf.
  destruct (ioFaults w) as [|b l]; simpl; [by rewrite take_nil|].
  by intros [_ H]%Forall_cons_1.
Qed.

Lemma calm_S (n : nat) (w : World) : calm (S n) w -> calm n w.
Proof.
  unfold calm. generalize (ioFaults w). clear w. intros l. revert n.
  induction l as [|b l IH]; intros n Hc; [by rewrite take_nil|].
  destruct n; [constructor|]. simpl in *.
  apply Forall_cons_1 in Hc as [-> Hc]. constructor; [done|]. by apply IH.
Qed.

Lemma calm_le (n m : nat) (w : World) : (n <= m)%nat -> calm m w -> calm n w.
Proof. induction 1 as [|m _ IH]; [done|]. intros Hc. by apply IH, calm_S. Qed.

(** *** What each operation does when it does not fault *)

Lemma storage_getItem_calm (key : string) (w : World) :
  calm 1 w ->
  fst (storage.getItem key w) =
    Fulfilled (contents (area_of ViaStorage w) w !! key) /\
  stores_are (snd (storage.getItem key w))
    (platform w) (secureStore w) (localStorage w) (tail (ioFaults w)).
Proof.
  intros H. unfold storage.getItem, await, LocalStorage.getItem,
    SecureStore.getItemAsync, stores_are.
  destruct (is_web (platform w)) eqn:Hw; rewrite platform_io_calm by done;
    cbn [fst snd area_of contents]; rewrite ?Hw; frame_tick; by destruct w.
Qed.

Lemma storage_setItem_calm (key value : string) (w : World) :
  calm 1 w ->
  fst (storage.setItem key value w) = Fulfilled tt /\
  stores_are (snd (storage.setItem key value w))
    (platform w) (secure_after w (insert key value))
    (local_after w (insert key value)) (tail (ioFaults w)).
Proof.
  intros H. unfold storage.setItem, await, LocalStorage.setItem,
    SecureStore.setItemAsync, stores_are, secure_after, local_after.
  destruct (is_web (platform w)) eqn:Hw; rewrite platform_io_calm by done;
    cbn [fst snd]; frame_tick; by destruct w.
Qed.

Lemma storage_deleteItem_calm (key : string) (w : World) :
  calm 1 w ->
  fst (storage.deleteItem key w) = Fulfilled tt /\
  stores_are (snd (storage.deleteItem key w))
    (platform w) (secure_after w (delete key))
    (local_after w (delete key)) (tail (ioFaults w)).
Proof.
  intros H. unfold storage.deleteItem, await, LocalStorage.removeItem,
    SecureStore.deleteItemAsync, stores_are, secure_after, local_after.
  destruct (is_web (platform w)) eqn:Hw; rewrite platform_io_calm by done;
    cbn [fst snd]; frame_tick; by destruct w.
Qed.

(** The value [storage] holds under a key in a world with the given stores. *)
Lemma contents_stores_are (w w' : World) sec loc faults (key : string) :
  stores_are w' (platform w) sec loc faults ->
  contents (area_of ViaStorage w') w' !! key =
    (if is_web (platform w) then loc else sec) !! key.
Proof.
  intros (Hp & Hs & Hl & _). unfold area_of, contents. rewrite Hp.
  destruct (is_web (platform w)); by rewrite ?Hs, ?Hl.
Qed.

(** X1. Writing a value under a key and reading the key back returns that
    value, on the web and on native platforms alike, and the write leaves the
    value of every other key as it was. The two operations are assumed not to
    fault. *)
Theorem storage_set_then_get (key value : string) (w : World) :
  calm 2 w ->
  let w1 := snd (storage.setItem key value w) in
  fst (storage.setItem key value w) = Fulfilled tt /\
  fst (storage.getItem key w1) = Fulfilled (Some value) /\
  (forall k, k <> key ->
     contents (area_of ViaStorage w1) w1 !! k =
     contents (area_of ViaStorage w) w !! k).
Proof.
  intros H w1.
  destruct (storage_setItem_calm key value w) as [Hr Hs]; [by apply calm_S|].
  fold w1 in Hs. split; [done|].
  destruct (storage_getItem_calm key w1) as [Hg _];
    [by eapply stores_are_calm|].
  split.
  - rewrite Hg, (contents_stores_are w w1 _ _ _ _ Hs).
    unfold secure_after, local_after.
    destruct (is_web (platform w)); by rewrite lookup_insert_eq.
  - intros k Hk. rewrite (contents_stores_are w w1 _ _ _ _ Hs).
    unfold secure_after, local_after, area_of, contents.
    destruct (is_web (platform w)); by rewrite lookup_insert_ne.
Qed.

Lemma storage_set_then_get_witness :
  let w := boot web ∅ {[ "theme"%string := "dark"%string ]} [] offline 0 in
  let w1 := snd (storage.setItem auth_token "abc" w) in
  fst (storage.setItem auth_token "abc" w) = Fulfilled tt /\
  fst (storage.getItem auth_token w1) = Fulfilled (Some "abc"%string) /\
  (forall k, k <> auth_token ->
     contents (area_of ViaStorage w1) w1 !! k =
     contents (area_of ViaStorage w) w !! k).
Proof.
  intros w. apply (storage_set_then_get auth_token "abc" w).
  unfold calm. simpl. constructor.
Defined.

(** X2. Deleting a key and reading it back returns absent, whether or not
    the key was there, and the delete leaves the value of every other key as
    it was. The two operations are assumed not to fault. *)
Theorem storage_delete_then_get (key : string) (w : World) :
  calm 2 w ->
  let w1 := snd (storage.deleteItem key w) in
  fst (storage.deleteItem key w) = Fulfilled tt /\
  fst (storage.getItem key w1) = Fulfilled None /\
  (forall k, k <> key ->
     contents (area_of ViaStorage w1) w1 !! k =
     contents (area_of ViaStorage w) w !! k).
Proof.
  intros H w1.
  destruct (storage_deleteItem_calm key w) as [Hr Hs]; [by apply calm_S|].
  fold w1 in Hs. split; [done|].
  destruct (storage_getItem_calm key w1) as [Hg _];
    [by eapply stores_are_calm|].
  split.
  - rewrite Hg, (contents_stores_are w w1 _ _ _ _ Hs).
    unfold secure_after, local_after.
    destruct (is_web (platform w)); by rewrite lookup_delete_eq.
  - intros k Hk. rewrite (contents_stores_are w w1 _ _ _ _ Hs).
    unfold secure_after, local_after, area_of, contents.
    destruct (is_web (platform w)); by rewrite lookup_delete_ne.
Qed.

Lemma storage_delete_then_get_witness :
  let w := boot ios {[ auth_token := "abc"%string ]} ∅ [false; false] offline 0 in
  let w1 := snd (storage.deleteItem auth_token w) in
  fst (storage.deleteItem auth_token w) = Fulfilled tt /\
  fst (storage.getItem auth_token w1) = Fulfilled None /\
  (forall k, k <> auth_token ->
     contents (area_of ViaStorage w1) w1 !! k =
     contents (area_of ViaStorage w) w !! k).
Proof.
  intros w. apply (storage_delete_then_get auth_token w).
  unfold calm. simpl. by repeat constructor.
Defined.

(** What a call through [storage] does to the stores, whatever the oracle
    says. *)
Lemma storage_call_stores (c : StorageCall) (w : World) :
  let w' := snd (storage_call c w) in
  platform w' = platform w /\
  (is_web (platform w) = true -> secureStore w' = secureStore w) /\
  (is_web (platform w) = false -> localStorage w' = localStorage w) /\
  (forall e, fst (storage_call c w) = Rejected e ->
     e = IOFault (area_of ViaStorage w) /\
     secureStore w' = secureStore w /\ localStorage w' = localStorage w).
Proof.
  destruct c as [key|key value|key]; simpl;
    unfold bind, storage.getItem, storage.setItem, storage.deleteItem, await,
      LocalStorage.getItem, LocalStorage.setItem, LocalStorage.removeItem,
      SecureStore.getItemAsync, SecureStore.setItemAsync,
      SecureStore.deleteItemAsync, platform_io, resolve;
    destruct (is_web (platform w)) eqn:Hw;
    destruct (head (ioFaults w)) as [[]|]; cbn [fst snd];
    frame_tick; repeat split; try (by destruct w); try done.
  all: try (intros e [= <-]); try (by destruct w); congruence.
Qed.

(** X3. Reading a key through [storage] returns exactly what the platform's
    area holds under it -- absent, not a rejection, for a key that is not
    there -- when the read does not fault; and a read never changes either
    store, whether it faults or not. *)
Theorem storage_get_reads_without_writing (key : string) (w : World) :
  (secureStore (snd (storage.getItem key w)) = secureStore w /\
   localStorage (snd (storage.getItem key w)) = localStorage w) /\
  (calm 1 w ->
   fst (storage.getItem key w) =
     Fulfilled (contents (area_of ViaStorage w) w !! key) /\
   (contents (area_of ViaStorage w) w !! key = None ->
    fst (storage.getItem key w) = Fulfilled None)).
Proof.
  split.
  - unfold storage.getItem, await, LocalStorage.getItem,
      SecureStore.getItemAsync, platform_io.
    destruct (is_web (platform w)); destruct (head (ioFaults w)) as [[]|];
      cbn [fst snd]; frame_tick; by destruct w.
  - intros H. destruct (storage_getItem_calm key w H) as [Hg _].
    split; [done|]. intros Hn. by rewrite Hg, Hn.
Qed.

Lemma storage_get_reads_without_writing_witness :
  let w := boot android ∅ ∅ [] offline 0 in
  fst (storage.getItem "missing" w) = Fulfilled None.
Proof.
  intros w.
  destruct (storage_get_reads_without_writing "missing" w) as [_ H].
  apply H.
  - unfold calm. simpl. constructor.
  - reflexivity.
Defined.

(** X4. A call through [storage] works on one area only: on the web it never
    changes the secure store, elsewhere it never changes [localStorage]. And
    a call that rejects has changed neither: the rejection is the fault of
    the platform's area. This holds for every key, value and fault pattern. *)
Theorem storage_call_isolated (c : StorageCall) (w : World) :
  let w' := snd (storage_call c w) in
  (platform w = web -> secureStore w' = secureStore w) /\
  (platform w <> web -> localStorage w' = localStorage w) /\
  (forall e, fst (storage_call c w) = Rejected e ->
     e = IOFault (area_of ViaStorage w) /\
     secureStore w' = secureStore w /\ localStorage w' = localStorage w).
Proof.
  destruct (storage_call_stores c w) as (_ & Hweb & Hnat & Hrej).
  split; [|split; [|done]].
  - intros Hp. apply Hweb. by rewrite Hp.
  - intros Hp. apply Hnat. by destruct (platform w).
Qed.

Lemma storage_call_isolated_witness :
  let w := boot web {[ auth_token := "native"%string ]} ∅ [] offline 0 in
  secureStore (snd (storage_call (CallSetItem auth_token "abc") w)) = secureStore w.
Proof.
  intros w.
  destruct (storage_call_isolated (CallSetItem auth_token "abc") w) as [H _].
  apply H. reflexivity.
Defined.

(** ** The session store and its persisted token (src/store/authStore.ts) *)

(** The persistence calls of the store, when they do not fault: the area the
    store addresses is updated, the platform stays and one oracle entry is
    used up. *)
Lemma persist_set_calm (via : Persistence) (key value : string) (w : World) :
  calm 1 w ->
  let w' := snd (persist_set via key value w) in
  fst (persist_set via key value w) = Fulfilled tt /\
  platform w' = platform w /\ ioFaults w' = tail (ioFaults w) /\
  contents (area_of via w) w' = <[key := value]> (contents (area_of via w) w).
Proof.
  intros H. destruct via; simpl.
  - unfold SecureStore.setItemAsync. rewrite platform_io_calm by done.
    cbn [fst snd]. by destruct w.
  - destruct (storage_setItem_calm key value w H) as (Hr & Hp & Hs & Hl & Hf).
    repeat split; try done. unfold contents, secure_after, local_after in *.
    by destruct (is_web (platform w)).
Qed.

Lemma persist_delete_calm (via : Persistence) (key : string) (w : World) :
  calm 1 w ->
  let w' := snd (persist_delete via key w) in
  fst (persist_delete via key w) = Fulfilled tt /\
  platform w' = platform w /\ ioFaults w' = tail (ioFaults w) /\
  contents (area_of via w) w' = delete key (contents (area_of via w) w).
Proof.
  intros H. destruct via; simpl.
  - unfold SecureStore.deleteItemAsync. rewrite platform_io_calm by done.
    cbn [fst snd]. by destruct w.
  - destruct (storage_deleteItem_calm key w H) as (Hr & Hp & Hs & Hl & Hf).
    repeat split; try done. unfold contents, secure_after, local_after in *.
    by destruct (is_web (platform w)).
Qed.

(** The area a store addresses depends on the platform only, and a state
    update or the event loop changes neither. *)
Lemma area_of_platform (via : Persistence) (w w' : World) :
  platform w' = platform w -> area_of via w' = area_of via w.
Proof. intros H. unfold area_of. by rewrite H. Qed.

Lemma contents_tick (a : Area) (w : World) : contents a (tick w) = contents a w.
Proof. destruct a; simpl; by frame_tick. Qed.

Lemma contents_apply_update (a : Area) (w : World) (p : Partial) :
  contents a (apply_update w p) = contents a w.
Proof. by destruct a, w. Qed.

Lemma platform_apply_update (w : World) (p : Partial) :
  platform (apply_update w p) = platform w.
Proof. by destruct w. Qed.

(** X5. When its storage call does not fault, [setToken(t)] completes with
    [t] as the in-memory token and [isAuthenticated = !!t], and the persisted
    store then holds [t] under the token key if [t] is a non-empty string and
    holds nothing under it otherwise: [setToken(null)] and [setToken('')]
    both delete the persisted token. *)
Theorem setToken_persists_what_it_sets
    (via : Persistence) (t : option string) (w : World) :
  calm 1 w ->
  let w' := snd (setToken via t w) in
  fst (setToken via t w) = Fulfilled tt /\
  token (session w') = t /\
  isAuthenticated (session w') = Js.truthy t /\
  contents (area_of via w') w' !! auth_token =
    (if Js.truthy t then t else None).
Proof.
  intros H.
  assert (fst (setToken_persist via t w) = Fulfilled tt /\
          platform (snd (setToken_persist via t w)) = platform w /\
          contents (area_of via w) (snd (setToken_persist via t w)) !! auth_token =
            (if Js.truthy t then t else None)) as (Hr & Hp & Hc).
  { unfold setToken_persist. destruct t as [s|]; simpl;
      [destruct (Js.truthy_string s)|].
    - destruct (persist_set_calm via auth_token s w H) as (? & ? & _ & ->).
      by rewrite lookup_insert_eq.
    - destruct (persist_delete_calm via auth_token w H) as (? & ? & _ & ->).
      by rewrite lookup_delete_eq.
    - destruct (persist_delete_calm via auth_token w H) as (? & ? & _ & ->).
      by rewrite lookup_delete_eq. }
  cbv zeta. unfold setToken, bind, await, set.
  destruct (setToken_persist via t w) as [r w1]. simpl in Hr, Hp, Hc. subst r.
  cbn [fst snd]. rewrite (area_of_platform via w)
    by (rewrite platform_apply_update, platform_tick; exact Hp).
  rewrite contents_apply_update, contents_tick.
  repeat split; try done; by destruct (tick w1).
Qed.

Lemma setToken_persists_what_it_sets_witness :
  let w := boot ios {[ auth_token := "abc"%string ]} ∅ [] offline 0 in
  let w' := snd (setToken DirectSecureStore (Some EmptyString) w) in
  fst (setToken DirectSecureStore (Some EmptyString) w) = Fulfilled tt /\
  token (session w') = Some EmptyString /\
  isAuthenticated (session w') = false /\
  contents (area_of DirectSecureStore w') w' !! auth_token = None.
Proof.
  intros w.
  apply (setToken_persists_what_it_sets DirectSecureStore (Some EmptyString) w).
  unfold calm. simpl. constructor.
Defined.

(** X6. A store operation that rejects has changed nothing: the session state
    and both stores are as before, and the rejection is the fault of the
    area the store persists to. Only the storage call of [setToken], [login]
    and [logout] can make an operation reject. *)
Theorem store_rejection_changes_nothing
    (via : Persistence) (op : Op) (w : World) (e : Reason) :
  pending w = [] ->
  fst (exec via op w) = Rejected e ->
  let w' := snd (exec via op w) in
  e = IOFault (area_of via w) /\
  session w' = session w /\
  secureStore w' = secureStore w /\ localStorage w' = localStorage w /\
  match op with OpSetUser _ | OpSetLoading _ => False | _ => True end.
Proof.
  destruct w as [os sec loc faults net s q n unh tr]. simpl. intros ->.
  destruct op as [u|[t|]|b|t u|]; simpl;
    unfold setToken, setToken_persist, login, logout;
    try destruct (Js.truthy_string t);
    destruct via, os, faults as [|[] faults]; cbn;
    intros [= <-] || discriminate; done.
Qed.

Lemma store_rejection_changes_nothing_witness :
  let w := snd (login ViaStorage "abc" sample_user
                  (boot web ∅ ∅ [false; true] offline 0)) in
  let w' := snd (exec ViaStorage OpLogout w) in
  IOFault Local = IOFault (area_of ViaStorage w) /\
  session w' = session w /\
  secureStore w' = secureStore w /\ localStorage w' = localStorage w /\
  True.
Proof.
  intros w.
  apply (store_rejection_changes_nothing ViaStorage OpLogout w (IOFault Local)).
  - reflexivity.
  - reflexivity.
Defined.

Lemma exec_keeps_persisted_matches_memory
    (via : Persistence) (op : Op) (w : World) :
  pending w = [] -> persisted_matches_memory via w ->
  session_call op -> login_token_nonempty op ->
  persisted_matches_memory via (snd (exec via op w)).
Proof.
  destruct w as [os sec loc faults net s q n unh tr].
  unfold persisted_matches_memory. simpl. intros -> Hinv Hc Hn.
  destruct op as [u|[t|]|b|t u|]; try done; simpl in Hn;
    unfold exec, setToken, setToken_persist, login, logout.
  3: pose proof (truthy_string_nonempty t Hn) as Ht.
  1: destruct (Js.truthy_string t) eqn:Ht.
  all: destruct via, os, faults as [|[] faults];
    cbn -[Js.truthy_string] in *; rewrite ?Ht;
    rewrite ?lookup_insert_eq, ?lookup_delete_eq; done.
Qed.

Lemma worlds_after_persisted_matches_memory
    (via : Persistence) (ops : list Op) (w : World) :
  pending w = [] -> persisted_matches_memory via w ->
  Forall session_call ops -> Forall login_token_nonempty ops ->
  Forall (persisted_matches_memory via) (worlds_after via ops w).
Proof.
  revert w. induction ops as [|op ops IH]; intros w Hq Hinv Hc Hn; [constructor|].
  apply Forall_cons_1 in Hc as [Hc Hcs]. apply Forall_cons_1 in Hn as [Hn Hns].
  destruct (exec_settles via op w Hq) as [Hq' _].
  simpl. constructor; [by apply exec_keeps_persisted_matches_memory|].
  apply IH; try done. by apply exec_keeps_persisted_matches_memory.
Qed.

(** X7. The persisted token follows the in-memory token. Start the process
    with no token persisted and make any sequence of [login], [logout] and
    [setToken] calls, every [login] token being non-empty; whichever storage
    operations fault, after each call the persisted store holds the in-memory
    token when that one is present and holds no token when it is not. *)
Theorem persisted_token_follows_memory
    (via : Persistence) (os : OS) (secure local : gmap string string)
    (faults : list bool) (net : Config -> Reply) (n : nat) (ops : list Op) :
  let w0 := boot os secure local faults net n in
  contents (area_of via w0) w0 !! auth_token = None ->
  Forall session_call ops -> Forall login_token_nonempty ops ->
  Forall (persisted_matches_memory via) (worlds_after via ops w0).
Proof.
  intros w0 H0 Hc Hn. apply worlds_after_persisted_matches_memory; try done.
Qed.

Lemma persisted_token_follows_memory_witness :
  Forall (persisted_matches_memory ViaStorage)
    (worlds_after ViaStorage
       [OpLogin "abc" sample_user; OpSetToken (Some "xyz"%string); OpLogout;
        OpSetToken (Some EmptyString)]
       (boot web {[ auth_token := "native"%string ]} ∅ [false; true] offline 0)).
Proof.
  apply (persisted_token_follows_memory ViaStorage web
           {[ auth_token := "native"%string ]} ∅ [false; true] offline 0).
  - reflexivity.
  - repeat constructor.
  - repeat constructor. discriminate.
Defined.

(** ** The API client (src/services/api.ts) *)

(** X11. Whatever the request, the reply and the faults of the platform
    store, one call of the client sends at most one request (it never
    retries), stays on its platform, never touches [localStorage], never
    writes to the secure store -- the store is as before or has lost the
    token key, nothing else -- and, no un-awaited update being in flight,
    leaves the session state as it was. *)
Theorem request_side_effects_bounded (config : Config) (w : World) :
  let w' := snd (api.request config w) in
  (exists l, sent w' = sent w ++ l /\ (length l <= 1)%nat) /\
  platform w' = platform w /\
  localStorage w' = localStorage w /\
  (secureStore w' = secureStore w \/
   secureStore w' = delete auth_token (secureStore w)) /\
  (pending w = [] -> session w' = session w).
Proof.
  cbv zeta. rewrite request_throws. cbn [snd].
  split_and!; try done; [|by left].
  exists []. split; [by rewrite app_nil_r|simpl; lia].
Qed.

Lemma request_side_effects_bounded_witness :
  let w := boot ios {[ auth_token := "abc"%string ]} ∅ []
             (always (mkResponse 401 None)) 0 in
  session (snd (authAPI.logout w)) = session w.
Proof.
  intros w.
  destruct (request_side_effects_bounded
              (mkConfig POST "/auth/logout" api.default_headers []) w)
    as (_ & _ & _ & _ & H).
  apply H. reflexivity.
Defined.

(** ** Startup resolution (app/_layout.tsx) *)

(** X12. Startup resolution never gets stuck and never fails: on every
    platform, whatever the stores hold, whatever the backend answers and
    whichever storage operations fault, the promise of [loadAuth] is
    fulfilled, and once everything it started has settled [isLoading] is
    false and no state update is left in flight. *)
Theorem startup_always_settles
    (via : Persistence) (os : OS) (secure local : gmap string string)
    (faults : list bool) (net : Config -> Reply) (n : nat) :
  let w0 := boot os secure local faults net n in
  fst (loadAuth via w0) = Fulfilled tt /\
  isLoading (session (startup via w0)) = false /\
  pending (startup via w0) = [].
Proof.
  intros w0.
  destruct (startup_reaches_not_loading via os secure local faults net n)
    as [Hf Hl].
  repeat split; try done. apply pending_run_pending.
Qed.

(** X13. Startup with nothing to resume. When the read of the token does not
    fault and [storage] holds no token, or the empty string, under the token
    key, the run sends no request, changes neither store, leaves no rejection
    unhandled and ends in the initial state with [isLoading = false]:
    unauthenticated, no user, no token. *)
Theorem startup_without_persisted_token
    (via : Persistence) (os : OS) (secure local : gmap string string)
    (faults : list bool) (net : Config -> Reply) (n : nat) :
  let w0 := boot os secure local faults net n in
  calm 1 w0 ->
  Js.truthy (contents (area_of ViaStorage w0) w0 !! auth_token) = false ->
  let w := startup via w0 in
  session w =
    {| user := None; token := None; isLoading := false; isAuthenticated := false |} /\
  sent w = [] /\
  secureStore w = secure /\ localStorage w = local /\
  unhandled w = [].
Proof.
  intros w0 H Ht. subst w0. unfold calm in H. simpl in H, Ht.
  unfold startup, loadAuth, loadAuth_guarded, try_finally, try_catch, bind,
    await, storage.getItem.
  calm_next H faults.
  all: destruct os; simpl in Ht; cbn -[Js.truthy]; rewrite Ht; by cbn.
Qed.

Lemma startup_without_persisted_token_witness :
  let w := startup ViaStorage
             (boot web {[ auth_token := "native"%string ]}
                {[ auth_token := EmptyString ]} [] offline 0) in
  session w =
    {| user := None; token := None; isLoading := false; isAuthenticated := false |} /\
  sent w = [] /\
  secureStore w = {[ auth_token := "native"%string ]} /\
  localStorage w = {[ auth_token := EmptyString ]} /\
  unhandled w = [].
Proof.
  apply (startup_without_persisted_token ViaStorage web
           {[ auth_token := "native"%string ]} {[ auth_token := EmptyString ]}
           [] offline 0).
  - unfold calm. simpl. constructor.
  - reflexivity.
Defined.

(** X14. A fault while reading the token at startup is treated like a failed
    session: the run sends no request and ends unauthenticated with
    [isLoading = false], and when the delete in the [catch] block does not
    fault the persisted token is gone afterwards, although it was never
    looked at. *)
Theorem startup_read_fault_deletes_token
    (via : Persistence) (os : OS) (secure local : gmap string string)
    (faults : list bool) (net : Config -> Reply) (n : nat) :
  let w0 := boot os secure local (true :: faults) net n in
  let w := startup via w0 in
  session w =
    {| user := None; token := None; isLoading := false; isAuthenticated := false |} /\
  sent w = [] /\
  unhandled w = [] /\
  (head faults <> Some true ->
   contents (area_of ViaStorage w) w !! auth_token = None).
Proof.
  intros w0. subst w0.
  unfold startup, loadAuth, loadAuth_guarded, try_finally, try_catch, bind,
    await, storage.getItem, storage.deleteItem.
  destruct faults as [|[] faults]; destruct os; cbn; split_and!; try done.
  all: intros _; by rewrite lookup_delete_eq.
Qed.

Lemma startup_read_fault_deletes_token_witness :
  let w := startup DirectSecureStore
             (boot ios {[ auth_token := "abc"%string ]} ∅ [true] offline 0) in
  let w' := startup DirectSecureStore
              (boot ios {[ auth_token := "abc"%string ]} ∅ [true; true] offline 0) in
  (session w =
     {| user := None; token := None; isLoading := false; isAuthenticated := false |} /\
   sent w = [] /\
   unhandled w = [] /\
   contents (area_of ViaStorage w) w !! auth_token = None) /\
  (session w' =
     {| user := None; token := None; isLoading := false; isAuthenticated := false |} /\
   sent w' = [] /\
   unhandled w' = []).
Proof.
  destruct (startup_read_fault_deletes_token DirectSecureStore ios
              {[ auth_token := "abc"%string ]} ∅ [] offline 0)
    as (H1 & H2 & H3 & H4).
  destruct (startup_read_fault_deletes_token DirectSecureStore ios
              {[ auth_token := "abc"%string ]} ∅ [true] offline 0)
    as (H1' & H2' & H3' & _).
  split; [split_and!; try assumption; apply H4; discriminate|].
  split_and!; assumption.
Defined.

(** *** Running a program step by step

    Equations that evaluate one construct of a program on a world given by
    its fields, and a tactic that chains them. The worlds are those without
    storage faults. *)

Section Run.

Context {A B : Type}.

Lemma run_bind (m : Async A) (k : A -> Async B) w a w1 res :
  m w = (Fulfilled a, w1) -> k a w1 = res -> bind m k w = res.
Proof. intros Hm <-. unfold bind. by rewrite Hm. Qed.

Lemma run_bind_rejected (m : Async A) (k : A -> Async B) w e w1 :
  m w = (Rejected e, w1) -> bind m k w = (Rejected e, w1).
Proof. intros Hm. unfold bind. by rewrite Hm. Qed.

Lemma run_and_then (m : Async A) (f : A -> Async B) (g : Reason -> Async B)
    w a w1 res :
  m w = (Fulfilled a, w1) -> f a w1 = res -> and_then m f g w = res.
Proof. intros Hm <-. unfold and_then. by rewrite Hm. Qed.

Lemma run_and_then_rejected (m : Async A) (f : A -> Async B)
    (g : Reason -> Async B) w e w1 res :
  m w = (Rejected e, w1) -> g e w1 = res -> and_then m f g w = res.
Proof. intros Hm <-. unfold and_then. by rewrite Hm. Qed.

Lemma run_await (m : Async A) w r w1 w2 :
  m w = (r, w1) -> tick w1 = w2 -> await m w = (r, w2).
Proof. intros Hm <-. unfold await. by rewrite Hm. Qed.

Lemma run_try_catch (m : Async A) (h : Reason -> Async A) w a w1 :
  m w = (Fulfilled a, w1) -> try_catch m h w = (Fulfilled a, w1).
Proof. intros Hm. unfold try_catch. by rewrite Hm. Qed.

Lemma run_try_catch_rejected (m : Async A) (h : Reason -> Async A) w e w1 res :
  m w = (Rejected e, w1) -> h e w1 = res -> try_catch m h w = res.
Proof. intros Hm <-. unfold try_catch. by rewrite Hm. Qed.

Lemma run_try_finally (m : Async A) (f : Async unit) w r w1 u w2 :
  m w = (r, w1) -> f w1 = (Fulfilled u, w2) -> try_finally m f w = (r, w2).
Proof. intros Hm Hf. unfold try_finally. by rewrite Hm, Hf. Qed.

End Run.

Lemma run_detached (io : Async unit) (p : Partial) w u
    os sec loc f net s n unh tr :
  io w = (Fulfilled u, mkWorld os sec loc f net s [] n unh tr) ->
  detached io p w =
    (Fulfilled tt, mkWorld os sec loc f net s [p] n unh tr).
Proof. intros Hio. unfold detached. by rewrite Hio. Qed.

Lemma run_set (p : Partial) os sec loc f net s q n unh tr :
  set p (mkWorld os sec loc f net s q n unh tr) =
    (Fulfilled tt, mkWorld os sec loc f net (merge p s) q n unh (tr ++ [Updated p])).
Proof. reflexivity. Qed.

Lemma run_secure_get (key : string) v os sec loc net s q n unh tr :
  sec !! key = v ->
  SecureStore.getItemAsync key (mkWorld os sec loc [] net s q n unh tr) =
    (Fulfilled v, mkWorld os sec loc [] net s q n unh (tr ++ [Read Secure key])).
Proof. by intros <-. Qed.

Lemma run_secure_set (key value : string) os sec loc net s q n unh tr :
  SecureStore.setItemAsync key value (mkWorld os sec loc [] net s q n unh tr) =
    (Fulfilled tt, mkWorld os (<[key := value]> sec) loc [] net s q n unh
                     (tr ++ [Wrote Secure key value])).
Proof. reflexivity. Qed.

Lemma run_secure_delete (key : string) os sec loc net s q n unh tr :
  SecureStore.deleteItemAsync key (mkWorld os sec loc [] net s q n unh tr) =
    (Fulfilled tt, mkWorld os (delete key sec) loc [] net s q n unh
                     (tr ++ [Removed Secure key])).
Proof. reflexivity. Qed.

Lemma run_tick_idle os sec loc f net s n unh tr :
  tick (mkWorld os sec loc f net s [] n unh tr) =
    mkWorld os sec loc f net s [] n unh tr.
Proof. reflexivity. Qed.

Lemma run_tick_wait os sec loc f net s p n unh tr :
  tick (mkWorld os sec loc f net s [p] (S n) unh tr) =
    mkWorld os sec loc f net s [p] n unh tr.
Proof. reflexivity. Qed.

Lemma run_tick_now os sec loc f net s p unh tr :
  tick (mkWorld os sec loc f net s [p] 0 unh tr) =
    mkWorld os sec loc f net (merge p s) [] 0 unh (tr ++ [Updated p]).
Proof. reflexivity. Qed.

Lemma run_dispatch_replied (c : Config) (r : Response)
    os sec loc f net s q n unh tr :
  net c = Replied r -> validateStatus (status r) = true ->
  dispatchRequest c (mkWorld os sec loc f net s q n unh tr) =
    (Fulfilled r, mkWorld os sec loc f net s q n unh (tr ++ [Sent c])).
Proof. intros Hn Hv. unfold dispatchRequest. simpl. by rewrite Hn, Hv. Qed.

Lemma run_dispatch_failed (c : Config) (r : Response)
    os sec loc f net s q n unh tr :
  net c = Replied r -> validateStatus (status r) = false ->
  dispatchRequest c (mkWorld os sec loc f net s q n unh tr) =
    (Rejected (RequestFailed (mkAxiosError c (Some r))),
     mkWorld os sec loc f net s q n unh (tr ++ [Sent c])).
Proof. intros Hn Hv. unfold dispatchRequest. simpl. by rewrite Hn, Hv. Qed.

Lemma run_dispatch_unreachable (c : Config) os sec loc f net s q n unh tr :
  net c = Unreachable ->
  dispatchRequest c (mkWorld os sec loc f net s q n unh tr) =
    (Rejected (RequestFailed (mkAxiosError c None)),
     mkWorld os sec loc f net s q n unh (tr ++ [Sent c])).
Proof. intros Hn. unfold dispatchRequest. simpl. by rewrite Hn. Qed.

Lemma run_resolve {A : Type} (a : A) w : resolve a w = (Fulfilled a, w).
Proof. reflexivity. Qed.

Lemma run_reject {A : Type} (e : Reason) w : @reject A e w = (Rejected e, w).
Proof. reflexivity. Qed.

Lemma run_storage_get_native (key : string) os sec loc f net s q n unh tr res :
  is_web os = false ->
  await (SecureStore.getItemAsync key) (mkWorld os sec loc f net s q n unh tr) = res ->
  storage.getItem key (mkWorld os sec loc f net s q n unh tr) = res.
Proof. intros Hw <-. unfold storage.getItem. simpl. by rewrite Hw. Qed.

Lemma run_storage_set_native (key value : string) os sec loc f net s q n unh tr res :
  is_web os = false ->
  await (SecureStore.setItemAsync key value) (mkWorld os sec loc f net s q n unh tr) = res ->
  storage.setItem key value (mkWorld os sec loc f net s q n unh tr) = res.
Proof. intros Hw <-. unfold storage.setItem. simpl. by rewrite Hw. Qed.

Lemma run_storage_delete_native (key : string) os sec loc f net s q n unh tr res :
  is_web os = false ->
  await (SecureStore.deleteItemAsync key) (mkWorld os sec loc f net s q n unh tr) = res ->
  storage.deleteItem key (mkWorld os sec loc f net s q n unh tr) = res.
Proof. intros Hw <-. unfold storage.deleteItem. simpl. by rewrite Hw. Qed.

Lemma run_settle_idle os sec loc f net s n unh tr :
  settle (mkWorld os sec loc f net s [] n unh tr) =
    mkWorld os sec loc f net s [] n unh tr.
Proof. reflexivity. Qed.

Lemma run_settle_one os sec loc f net s p n unh tr :
  settle (mkWorld os sec loc f net s [p] n unh tr) =
    mkWorld os sec loc f net (merge p s) [] n unh (tr ++ [Updated p]).
Proof. reflexivity. Qed.

Lemma run_if_decide_true {A : Type} (P : Prop) `{Decision P} (x y : Async A) w res :
  P -> x w = res -> (if decide P then x else y) w = res.
Proof. intros HP <-. by rewrite decide_True. Qed.

Lemma run_if_decide_false {A : Type} (P : Prop) `{Decision P} (x y : Async A) w res :
  ~ P -> y w = res -> (if decide P then x else y) w = res.
Proof. intros HP <-. by rewrite decide_False. Qed.

Lemma run_local_get (key : string) v os sec loc net s q n unh tr :
  loc !! key = v ->
  LocalStorage.getItem key (mkWorld os sec loc [] net s q n unh tr) =
    (Fulfilled v, mkWorld os sec loc [] net s q n unh (tr ++ [Read Local key])).
Proof. by intros <-. Qed.

Lemma run_local_set (key value : string) os sec loc net s q n unh tr :
  LocalStorage.setItem key value (mkWorld os sec loc [] net s q n unh tr) =
    (Fulfilled tt, mkWorld os sec (<[key := value]> loc) [] net s q n unh
                     (tr ++ [Wrote Local key value])).
Proof. reflexivity. Qed.

Lemma run_local_remove (key : string) os sec loc net s q n unh tr :
  LocalStorage.removeItem key (mkWorld os sec loc [] net s q n unh tr) =
    (Fulfilled tt, mkWorld os sec (delete key loc) [] net s q n unh
                     (tr ++ [Removed Local key])).
Proof. reflexivity. Qed.

Lemma run_storage_get_web (key : string) os sec loc f net s q n unh tr res :
  is_web os = true ->
  LocalStorage.getItem key (mkWorld os sec loc f net s q n unh tr) = res ->
  storage.getItem key (mkWorld os sec loc f net s q n unh tr) = res.
Proof. intros Hw <-. unfold storage.getItem. simpl. by rewrite Hw. Qed.

Lemma run_storage_set_web (key value : string) os sec loc f net s q n unh tr res :
  is_web os = true ->
  LocalStorage.setItem key value (mkWorld os sec loc f net s q n unh tr) = res ->
  storage.setItem key value (mkWorld os sec loc f net s q n unh tr) = res.
Proof. intros Hw <-. unfold storage.setItem. simpl. by rewrite Hw. Qed.

Lemma run_storage_delete_web (key : string) os sec loc f net s q n unh tr res :
  is_web os = true ->
  LocalStorage.removeItem key (mkWorld os sec loc f net s q n unh tr) = res ->
  storage.deleteItem key (mkWorld os sec loc f net s q n unh tr) = res.
Proof. intros Hw <-. unfold storage.deleteItem. simpl. by rewrite Hw. Qed.

Lemma run_if_true {A : Type} (b : bool) (x y : Async A) w res :
  b = true -> x w = res -> (if b then x else y) w = res.
Proof. by intros -> <-. Qed.

Lemma run_if_false {A : Type} (b : bool) (x y : Async A) w res :
  b = false -> y w = res -> (if b then x else y) w = res.
Proof. by intros -> <-. Qed.

Ltac head_constant t :=
  lazymatch t with
  | ?f _ => head_constant f
  | _ => t
  end.

Ltac run_tick :=
  lazymatch goal with
  | |- tick (mkWorld _ _ _ _ _ _ [] _ _ _) = _ => apply run_tick_idle
  | |- tick (mkWorld _ _ _ _ _ _ [_] (S _) _ _) = _ => apply run_tick_wait
  | |- tick (mkWorld _ _ _ _ _ _ [_] O _ _) = _ => apply run_tick_now
  end.

Ltac run_side :=
  first [eassumption | apply lookup_insert_eq | apply lookup_delete_eq
        | reflexivity
        | match goal with H : _ |- _ => exact H end
        | match goal with H : _ |- _ => apply H end
        | (simpl; congruence)
        | done].

Ltac run :=
  cbv beta iota;
  lazymatch goal with
  | |- bind _ _ _ = _ =>
      first [eapply run_bind; [solve [run]|run]
            |eapply run_bind_rejected; solve [run]]
  | |- and_then _ _ _ _ = _ =>
      first [eapply run_and_then; [solve [run]|run]
            |eapply run_and_then_rejected; [solve [run]|run]]
  | |- try_catch _ _ _ = _ =>
      first [eapply run_try_catch; solve [run]
            |eapply run_try_catch_rejected; [solve [run]|run]]
  | |- try_finally _ _ _ = _ =>
      eapply run_try_finally; [solve [run]|solve [run]]
  | |- await _ _ = _ => eapply run_await; [solve [run]|run_tick]
  | |- detached _ _ _ = _ => eapply run_detached; solve [run]
  | |- set _ _ = _ => apply run_set
  | |- setUser _ _ = _ => apply run_set
  | |- setLoading _ _ = _ => apply run_set
  | |- resolve _ _ = _ => apply run_resolve
  | |- reject _ _ = _ => apply run_reject
  | |- SecureStore.getItemAsync _ _ = _ => eapply run_secure_get; run_side
  | |- SecureStore.setItemAsync _ _ _ = _ => apply run_secure_set
  | |- SecureStore.deleteItemAsync _ _ = _ => apply run_secure_delete
  | |- LocalStorage.getItem _ _ = _ => eapply run_local_get; run_side
  | |- LocalStorage.setItem _ _ _ = _ => apply run_local_set
  | |- LocalStorage.removeItem _ _ = _ => apply run_local_remove
  | |- storage.getItem _ _ = _ =>
      first [eapply run_storage_get_native; [run_side|run]
            |eapply run_storage_get_web; [run_side|run]]
  | |- storage.setItem _ _ _ = _ =>
      first [eapply run_storage_set_native; [run_side|run]
            |eapply run_storage_set_web; [run_side|run]]
  | |- storage.deleteItem _ _ = _ =>
      first [eapply run_storage_delete_native; [run_side|run]
            |eapply run_storage_delete_web; [run_side|run]]
  | |- dispatchRequest _ _ = _ =>
      first [eapply run_dispatch_replied; [run_side|run_side]
            |eapply run_dispatch_failed; [run_side|run_side]
            |eapply run_dispatch_unreachable; run_side]
  | |- (if decide _ then _ else _) _ = _ =>
      first [eapply run_if_decide_true; [run_side|run]
            |eapply run_if_decide_false; [run_side|run]]
  | |- (if _ then _ else _) _ = _ =>
      first [eapply run_if_true; [run_side|run]
            |eapply run_if_false; [run_side|run]]
  | |- ?t = _ => let h := head_constant t in unfold h; run
  end.


Ltac run_settle :=
  lazymatch goal with
  | |- context [settle (mkWorld ?os ?sec ?loc ?f ?net ?s [] ?n ?unh ?tr)] =>
      rewrite (run_settle_idle os sec loc f net s n unh tr)
  | |- context [settle (mkWorld ?os ?sec ?loc ?f ?net ?s [?p] ?n ?unh ?tr)] =>
      rewrite (run_settle_one os sec loc f net s p n unh tr)
  end.

(** Evaluates the startup run of the goal. *)
Ltac run_startup :=
  unfold startup, boot;
  lazymatch goal with
  | |- context [loadAuth ?via ?w] =>
      let H := fresh "Hrun" in
      eassert (loadAuth via w = _) as H by run;
      rewrite H; clear H; cbn [snd]; run_settle
  end.

(** X15. Startup never restores a session. When [storage] holds a non-empty
    token and no storage operation faults, then on every platform, whatever
    the backend would answer and whenever the event loop runs the
    continuation of the un-awaited [setToken], the profile request throws in
    the client's request interceptor: no request is sent, the [catch] block
    deletes the persisted token, no rejection is left unhandled, and the run
    ends with [isLoading = false] and no user, while the token stays in
    memory with [isAuthenticated = true]: the [catch] block clears the store,
    not the state. *)
Theorem startup_with_persisted_token_never_restores
    (via : Persistence) (os : OS) (secure local : gmap string string)
    (net : Config -> Reply) (n : nat) (t : string) :
  let w0 := boot os secure local [] net n in
  contents (area_of ViaStorage w0) w0 !! auth_token = Some t ->
  t <> EmptyString ->
  let w := startup via w0 in
  session w =
    {| user := None; token := Some t; isLoading := false;
       isAuthenticated := true |} /\
  contents (area_of ViaStorage w) w !! auth_token = None /\
  sent w = [] /\
  unhandled w = [].
Proof.
  intros w0 Hs Hne w. subst w w0.
  pose proof (truthy_string_nonempty t Hne) as Ht.
  destruct os; cbn [area_of is_web platform boot contents secureStore localStorage] in Hs.
  all: destruct via, n as [|[|[|[|[|[|n]]]]]]; run_startup.
  all: split_and!; try reflexivity; try apply lookup_delete_eq.
  all: unfold merge; cbn -[Js.truthy_string]; by rewrite Ht.
Qed.

Lemma startup_with_persisted_token_never_restores_witness :
  let w := startup ViaStorage
             (boot web ∅ {[ auth_token := "abc"%string ]} []
                (always (mkResponse 200 (Some sample_user))) 1) in
  session w =
    {| user := None; token := Some "abc"%string; isLoading := false;
       isAuthenticated := true |} /\
  contents (area_of ViaStorage w) w !! auth_token = None /\
  sent w = [] /\
  unhandled w = [].
Proof.
  apply (startup_with_persisted_token_never_restores ViaStorage web
           ∅ {[ auth_token := "abc"%string ]}
           (always (mkResponse 200 (Some sample_user))) 1 "abc").
  - reflexivity.
  - discriminate.
Defined.

(** ** The route guard and the session (app/_layout.tsx) *)

Lemma segment_is_first (segments segments' : list string) (s : string) :
  segments' !! 0%nat = segments !! 0%nat ->
  segment_is segments' s = segment_is segments s.
Proof. intros H. unfold segment_is. by rewrite H. Qed.

(** X17. Whatever the state and the location, one evaluation of the route
    guard issues at most one navigation, none while loading; a navigation it
    issues replaces the location by the landing screen when unauthenticated
    and by the tabbed group when authenticated, never by anything else; and
    its decision depends on the first path segment only. *)
Theorem routeGuard_shape (isLoading isAuthenticated : bool) (segments : list string) :
  (length (routeGuard isLoading isAuthenticated segments) <= 1)%nat /\
  (forall nav, nav ∈ routeGuard isLoading isAuthenticated segments ->
     isLoading = false /\
     nav = replace (if isAuthenticated then "/(tabs)" else "/")) /\
  (forall segments', segments' !! 0%nat = segments !! 0%nat ->
     routeGuard isLoading isAuthenticated segments' =
     routeGuard isLoading isAuthenticated segments).
Proof.
  split; [|split].
  - unfold routeGuard. destruct isLoading; [simpl; lia|].
    repeat (match goal with |- context [if ?b then _ else _] => destruct b end);
      simpl; lia.
  - intros nav. unfold routeGuard. destruct isLoading; [by intros ?%elem_of_nil|].
    destruct isAuthenticated; cbn [negb andb].
    + match goal with |- context [if ?b then _ else _] => destruct b end.
      * by intros ->%list_elem_of_singleton.
      * by intros ?%elem_of_nil.
    + match goal with |- context [if ?b then _ else _] => destruct b end.
      * by intros ->%list_elem_of_singleton.
      * by intros ?%elem_of_nil.
  - intros segments' H. unfold routeGuard.
    by rewrite !(segment_is_first segments segments' _ H).
Qed.

Lemma routeGuard_shape_witness :
  replace "/" ∈ routeGuard false false ["profile"]%string /\
  (["profile"; "edit"] : list string) !! 0%nat = ["profile"]%string !! 0%nat /\
  (length (routeGuard false false ["profile"]%string) <= 1)%nat /\
  false = false /\
  replace "/" = replace "/" /\
  routeGuard false false ["profile"; "edit"]%string =
    routeGuard false false ["profile"]%string.
Proof.
  assert (replace "/" ∈ routeGuard false false ["profile"]%string) as Hin
    by (vm_compute; repeat constructor).
  assert ((["profile"; "edit"] : list string) !! 0%nat =
          ["profile"]%string !! 0%nat) as Hseg by reflexivity.
  destruct (routeGuard_shape false false ["profile"]%string) as (H1 & H2 & H3).
  destruct (H2 _ Hin) as [H4 H5].
  split_and!; [exact Hin|exact Hseg|exact H1|exact H4|reflexivity|exact (H3 _ Hseg)].
Defined.

(** What [login] and [logout] leave in the state when their storage call does
    not fault. *)
Lemma login_calm (via : Persistence) (t : string) (u : User) (w : World) :
  calm 1 w ->
  fst (login via t u w) = Fulfilled tt /\
  session (snd (login via t u w)) =
    {| user := Some u; token := Some t; isLoading := false;
       isAuthenticated := true |} /\
  ioFaults (snd (login via t u w)) = tail (ioFaults w) /\
  (pending w = [] -> pending (snd (login via t u w)) = []).
Proof.
  intros H. apply calm_head in H.
  unfold login, bind, await, set, persist_set, storage.setItem, await,
    LocalStorage.setItem, SecureStore.setItemAsync, platform_io.
  destruct via; try destruct (is_web (platform w));
    destruct (head (ioFaults w)) as [[]|]; try done; cbn [fst snd].
  all: split_and!; try done; unfold apply_update, log.
  all: try (by destruct (tick _)).
  all: try (cbn [ioFaults with_trace with_session]; frame_tick; by destruct w).
  all: intros Hq; cbn [pending with_trace with_session];
    unfold tick; by destruct w; simpl in *; subst.
Qed.

Lemma logout_calm (via : Persistence) (w : World) :
  calm 1 w -> pending w = [] ->
  let w' := snd (logout via w) in
  fst (logout via w) = Fulfilled tt /\
  session w' =
    {| user := None; token := None; isLoading := isLoading (session w);
       isAuthenticated := false |} /\
  contents (area_of via w) w' !! auth_token = None /\
  pending w' = [] /\ platform w' = platform w.
Proof.
  intros H Hq. apply calm_head in H. cbv zeta.
  unfold logout, bind, await, set, persist_delete, storage.deleteItem, await,
    LocalStorage.removeItem, SecureStore.deleteItemAsync, platform_io.
  destruct w as [os sec loc faults net s q n unh tr]. simpl in *. subst q.
  destruct via; try destruct os; destruct faults as [|[] faults]; try done;
    cbn; rewrite lookup_delete_eq; done.
Qed.

Lemma routeGuard_authenticated (segments : list string) :
  routeGuard false true segments =
    if first_segment_in segments authenticated_segments then []
    else [replace "/(tabs)"].
Proof.
  unfold routeGuard, first_segment_in, authenticated_segments. cbn [negb andb existsb].
  repeat (match goal with |- context [segment_is segments ?s] =>
            destruct (segment_is segments s) end; try reflexivity).
Qed.

(** X18. The guard follows the store. After a [login] that completed, the
    guard sends every location outside the tabbed group and its detail
    routes -- the login screen and the landing screen included -- to the
    tabbed group and leaves the others alone; after a [logout] that
    completed next, it sends every location outside the auth group to the
    landing screen. The two storage calls are assumed not to fault. *)
Theorem guard_after_login_and_logout
    (via : Persistence) (t : string) (u : User) (w : World)
    (segments : list string) :
  pending w = [] -> calm 2 w ->
  let w1 := snd (login via t u w) in
  let w2 := snd (logout via w1) in
  guard w1 segments =
    (if first_segment_in segments authenticated_segments then []
     else [replace "/(tabs)"]) /\
  guard w2 segments =
    (if segment_is segments "(auth)" then [] else [replace "/"]).
Proof.
  intros Hq H w1 w2.
  destruct (login_calm via t u w) as (_ & Hs1 & Hf1 & Hq1); [by apply calm_S|].
  fold w1 in Hs1, Hf1, Hq1. specialize (Hq1 Hq).
  assert (calm 1 w1) as H1.
  { unfold calm in *. rewrite Hf1. destruct (ioFaults w) as [|b l]; [done|].
    simpl in *. apply Forall_cons_1 in H as [_ H]. exact H. }
  destruct (logout_calm via w1 H1 Hq1) as (_ & Hs2 & _). fold w2 in Hs2.
  unfold guard. rewrite Hs1, Hs2. cbn [isLoading isAuthenticated]. rewrite Hs1.
  split; [apply routeGuard_authenticated|].
  unfold routeGuard. cbn [isLoading negb andb].
  by destruct (segment_is segments "(auth)").
Qed.

Lemma guard_after_login_and_logout_witness :
  let w := boot ios ∅ ∅ [] offline 0 in
  let w1 := snd (login DirectSecureStore "abc" sample_user w) in
  let w2 := snd (logout DirectSecureStore w1) in
  guard w1 ["(auth)"; "login"]%string = [replace "/(tabs)"] /\
  guard w2 ["(tabs)"; "profile"]%string = [replace "/"].
Proof.
  intros w. split.
  - apply (guard_after_login_and_logout DirectSecureStore "abc" sample_user w
             ["(auth)"; "login"]%string).
    + reflexivity.
    + unfold calm. simpl. constructor.
  - apply (guard_after_login_and_logout DirectSecureStore "abc" sample_user w
             ["(tabs)"; "profile"]%string).
    + reflexivity.
    + unfold calm. simpl. constructor.
Defined.

(** ** Logging out from the profile screen (app/(tabs)/profile.tsx) *)

(** The backend logout throws in the client's request interceptor; the
    [catch] block logs the failure, and all that has happened is the
    suspension of the [await]. *)
Lemma performLogout_remote_run (w : World) :
  performLogout_remote w = (Fulfilled tt, tick w).
Proof. reflexivity. Qed.

Lemma performLogout_remote_world (w : World) :
  pending w = [] ->
  let w1 := snd (performLogout_remote w) in
  session w1 = session w /\ pending w1 = [] /\ platform w1 = platform w.
Proof.
  intros Hq. cbv zeta. rewrite performLogout_remote_run. cbn [snd].
  unfold tick. by rewrite Hq.
Qed.

(** X19. When the local delete of [performLogout] faults, the function
    rejects with that fault before it has cleared anything: the session state
    is as before the call, [isLoggingOut] is left true and the router is
    never asked to leave the screen. *)
Theorem performLogout_stuck_on_local_fault
    (via : Persistence) (ui : ProfileScreen) (w : World) :
  pending w = [] ->
  head (ioFaults (snd (performLogout_remote w))) = Some true ->
  exists w',
    performLogout via ui w =
      (Rejected (IOFault (area_of via w)),
       mkProfileScreen true (navigations ui), w') /\
    session w' = session w.
Proof.
  intros Hq Hf.
  destruct (performLogout_remote_world w Hq) as (Hs & Hq1 & Hp).
  unfold performLogout.
  destruct (snd (performLogout_remote w)) as [os sec loc faults net s q n unh tr].
  simpl in *. subst q os. rewrite <- Hs.
  destruct faults as [|[] faults]; try done.
  unfold area_of.
  destruct via; [|destruct (platform w)]; eexists; split; reflexivity.
Qed.

Lemma performLogout_stuck_on_local_fault_witness :
  let w := snd (login DirectSecureStore "abc" sample_user
                  (boot ios ∅ ∅ [false; true] offline 0)) in
  exists w',
    performLogout DirectSecureStore (mkProfileScreen false []) w =
      (Rejected (IOFault Secure), mkProfileScreen true [], w') /\
    session w' = session w.
Proof.
  intros w.
  apply (performLogout_stuck_on_local_fault DirectSecureStore
           (mkProfileScreen false []) w).
  - reflexivity.
  - reflexivity.
Defined.

Lemma sent_app (tr : list Effect) (e : Effect) os sec loc f net s q n unh :
  sent (mkWorld os sec loc f net s q n unh (tr ++ [e])) =
    sent (mkWorld os sec loc f net s q n unh tr)
    ++ match e with Sent c => [c] | _ => [] end.
Proof. unfold sent. simpl. rewrite omap_app. by destruct e. Qed.

(** X20. Local logout always proceeds. The backend logout throws in the
    client's request interceptor before any request is sent, the failure is
    only logged, and [performLogout] completes all the same, having cleared
    the in-memory token and user, set [isAuthenticated = false], removed the
    persisted token and asked the router for the landing screen once, with
    [isLoggingOut] back to false. No storage operation is assumed to
    fault. *)
Theorem performLogout_clears_whatever_the_backend
    (via : Persistence) (ui : ProfileScreen) (w : World) :
  pending w = [] -> ioFaults w = [] ->
  exists w',
    performLogout via ui w =
      (Fulfilled tt, mkProfileScreen false (navigations ui ++ [replace "/"]), w') /\
    session w' =
      {| user := None; token := None; isLoading := isLoading (session w);
         isAuthenticated := false |} /\
    contents (area_of via w) w' !! auth_token = None /\
    sent w' = sent w.
Proof.
  destruct w as [os sec loc faults net s q n unh tr]. simpl. intros -> ->.
  unfold performLogout. rewrite performLogout_remote_run. cbn [snd].
  rewrite run_tick_idle.
  destruct via, os.
  all: lazymatch goal with
       | |- context [await (logout ?via) ?w] =>
           let H := fresh "Hrun" in
           eassert (await (logout via) w = _) as H by run;
           rewrite H; clear H
       end.
  all: eexists; split; [reflexivity|].
  all: split_and!; try reflexivity; try apply lookup_delete_eq.
  all: by rewrite !sent_app, !app_nil_r.
Qed.

Lemma performLogout_clears_whatever_the_backend_witness :
  let w := snd (login ViaStorage "abc" sample_user
                  (boot web ∅ ∅ [] (always (mkResponse 401 None)) 0)) in
  exists w',
    performLogout ViaStorage (mkProfileScreen false []) w =
      (Fulfilled tt, mkProfileScreen false [replace "/"], w') /\
    session w' =
      {| user := None; token := None; isLoading := false;
         isAuthenticated := false |} /\
    contents (area_of ViaStorage w) w' !! auth_token = None /\
    sent w' = sent w.
Proof.
  intros w.
  apply (performLogout_clears_whatever_the_backend ViaStorage
           (mkProfileScreen false []) w).
  - reflexivity.
  - reflexivity.
Defined.

(** ** The session-data exchange *)

(** X22. The session-data exchange goes around the client's interceptors:
    whatever the stores hold and whatever the backend answers, 401 included,
    it sends one request that carries the [X-Session-ID] header and no
    [Authorization] header, performs no storage operation -- the persisted
    token is neither read nor deleted -- and leaves the session state
    alone. *)
Theorem getSessionData_bypasses_interceptors (sessionId : string) (w : World) :
  let c := mkConfig GET "/auth/session-data"
             {[ "X-Session-ID"%string := sessionId ]} [] in
  let w' := snd (getSessionData sessionId w) in
  trace w' = trace w ++ [Sent c] /\
  headers c !! "Authorization"%string = None /\
  headers c !! "X-Session-ID"%string = Some sessionId /\
  secureStore w' = secureStore w /\ localStorage w' = localStorage w /\
  ioFaults w' = ioFaults w /\
  session w' = session w /\ pending w' = pending w.
Proof.
  cbv zeta. unfold getSessionData, dispatchRequest.
  destruct (network w _) as [r|]; [destruct (validateStatus (status r))|];
    cbn [snd headers]; split_and!; try reflexivity; by destruct w.
Qed.

(** ** The session id of a redirect URL *)

Lemma string_app_cons (x : Ascii.ascii) (a b : string) :
  String x a +:+ b = String x (a +:+ b).
Proof. reflexivity. Qed.

Lemma string_app_assoc (a b c : string) : (a +:+ b) +:+ c = a +:+ (b +:+ c).
Proof.
  induction a as [|x a IH]; [reflexivity|]. rewrite !string_app_cons. by f_equal.
Qed.

Lemma string_app_empty_r (a : string) : a +:+ EmptyString = a.
Proof.
  induction a as [|x a IH]; [reflexivity|]. rewrite string_app_cons. by f_equal.
Qed.

Lemma prefix_app (sep rest : string) : String.prefix sep (sep +:+ rest) = true.
Proof.
  induction sep as [|c sep IH]; [by destruct rest|].
  rewrite string_app_cons. simpl.
  destruct (Ascii.ascii_dec c c); [done|congruence].
Qed.

Lemma prefix_other (c0 c : Ascii.ascii) (sep' s' : string) :
  c0 <> c -> String.prefix (String c0 sep') (String c s') = false.
Proof. intros H. simpl. by destruct (Ascii.ascii_dec c0 c). Qed.

Lemma occurs_app (c : Ascii.ascii) (a b : string) :
  occurs c (a +:+ b) = occurs c a || occurs c b.
Proof.
  induction a as [|x a IH]; [reflexivity|]. rewrite string_app_cons. simpl.
  rewrite IH. by rewrite orb_assoc.
Qed.

Lemma split_from_absent (c0 : Ascii.ascii) (sep' piece s : string) :
  occurs c0 s = false ->
  split_from (String c0 sep') 0 piece s = [piece +:+ s].
Proof.
  revert piece. induction s as [|c s IH]; intros piece H.
  - simpl. by rewrite string_app_empty_r.
  - simpl in H. apply orb_false_iff in H as [Hc Hs].
    apply bool_decide_eq_false in Hc.
    cbn [split_from]. rewrite prefix_other by done.
    rewrite IH by done. by rewrite string_app_assoc.
Qed.

Lemma split_from_skip (sep piece u s : string) :
  split_from sep (String.length u) piece (u +:+ s) = split_from sep 0 piece s.
Proof.
  induction u as [|c u IH]; [reflexivity|]. rewrite string_app_cons. apply IH.
Qed.

Lemma split_from_first (c0 : Ascii.ascii) (sep' piece base rest : string) :
  occurs c0 base = false ->
  split_from (String c0 sep') 0 piece (base +:+ String c0 sep' +:+ rest) =
    (piece +:+ base) :: split_from (String c0 sep') 0 EmptyString rest.
Proof.
  revert piece. induction base as [|c base IH]; intros piece H.
  - rewrite string_app_empty_r.
    change (EmptyString +:+ String c0 sep' +:+ rest)
      with (String c0 (sep' +:+ rest)).
    cbn [split_from].
    change (String c0 (sep' +:+ rest)) with (String c0 sep' +:+ rest).
    rewrite prefix_app. cbn [String.length]. rewrite Nat.sub_1_r. cbn [Nat.pred].
    by rewrite split_from_skip.
  - simpl in H. apply orb_false_iff in H as [Hc Hs].
    apply bool_decide_eq_false in Hc.
    change (String c base +:+ String c0 sep' +:+ rest)
      with (String c (base +:+ String c0 sep' +:+ rest)).
    cbn [split_from]. rewrite prefix_other by done.
    rewrite IH by done. by rewrite string_app_assoc.
Qed.

(** X23. The session id is what follows the marker. For a redirect URL
    [base#session_id=sid] in which [#] occurs nowhere else, the extraction
    yields [sid], whatever query string [base] carries; for
    [base?session_id=sid] with no [#] at all and [?] nowhere else it yields
    [sid] as well; and a URL with neither [#] nor [?] yields no session id --
    the condition under which [handleGoogleLogin] exchanges nothing. *)
Theorem sessionId_of_redirect (base sid : string) :
  (occurs "#"%char base = false -> occurs "#"%char sid = false -> sid <> EmptyString ->
   sessionId_of (base +:+ "#session_id=" +:+ sid) = Some sid) /\
  (occurs "#"%char base = false -> occurs "#"%char sid = false ->
   occurs "?"%char base = false -> occurs "?"%char sid = false ->
   sessionId_of (base +:+ "?session_id=" +:+ sid) = Some sid) /\
  (occurs "#"%char base = false -> occurs "?"%char base = false ->
   Js.truthy (sessionId_of base) = false).
Proof.
  unfold sessionId_of, split.
  rewrite !decide_False by done. split_and!.
  - intros Hb Hs Hne.
    rewrite (split_from_first "#"%char "session_id=" EmptyString base sid Hb).
    rewrite (split_from_absent "#"%char "session_id=" EmptyString sid Hs).
    simpl. unfold or_else, Js.truthy, Js.truthy_string.
    by rewrite decide_False.
  - intros Hb Hs Hqb Hqs.
    rewrite (split_from_absent "#"%char "session_id=" EmptyString).
    2:{ rewrite !occurs_app, Hb, Hs. reflexivity. }
    rewrite (split_from_first "?"%char "session_id=" EmptyString base sid Hqb).
    rewrite (split_from_absent "?"%char "session_id=" EmptyString sid Hqs).
    reflexivity.
  - intros Hb Hq.
    rewrite (split_from_absent "#"%char "session_id=" EmptyString base Hb).
    rewrite (split_from_absent "?"%char "session_id=" EmptyString base Hq).
    reflexivity.
Qed.

Lemma sessionId_of_redirect_witness :
  sessionId_of "blossom://?x=1#session_id=s-42" = Some "s-42"%string /\
  sessionId_of "blossom://?session_id=s-42" = Some "s-42"%string /\
  Js.truthy (sessionId_of "blossom://") = false.
Proof.
  destruct (sessionId_of_redirect "blossom://?x=1" "s-42") as (H1 & _ & _).
  destruct (sessionId_of_redirect "blossom://" "s-42") as (_ & H2 & H3).
  split_and!.
  - apply H1; [reflexivity|reflexivity|discriminate].
  - apply H2; reflexivity.
  - apply H3; reflexivity.
Defined.

(** ** Push notifications *)

(** X24. No push token is ever returned. Whatever expo-notifications
    answers -- permission granted and a token issued included -- the
    registration with the backend throws in the client's request interceptor
    and the [catch] block returns null: the function returns no token, sends
    no request and performs no storage operation. *)
Theorem push_token_never_returned (N : Notifications.Answers) (w : World) :
  let out := registerForPushNotificationsAsync N w in
  fst (fst out) = None /\
  sent (snd out) = sent w /\
  secureStore (snd out) = secureStore w /\
  localStorage (snd out) = localStorage w /\
  ioFaults (snd out) = ioFaults w.
Proof.
  cbv zeta.
  assert (forall st calls w0,
    let out := register_with_status N st calls w0 in
    fst (fst out) = None /\ sent (snd out) = sent w0 /\
    secureStore (snd out) = secureStore w0 /\
    localStorage (snd out) = localStorage w0 /\
    ioFaults (snd out) = ioFaults w0) as Hreg.
  { intros st calls w0. cbv zeta. unfold register_with_status.
    destruct (decide (st <> "granted"%string)); [done|]. cbv zeta.
    destruct (Notifications.getExpoPushTokenAsync N) as [token|].
    - unfold await, notificationAPI.registerToken, api.post.
      rewrite request_throws. cbn [fst snd].
      rewrite !sent_tick. by frame_tick.
    - cbn [fst snd]. rewrite sent_tick. by frame_tick. }
  unfold registerForPushNotificationsAsync. cbv zeta.
  destruct (Notifications.getPermissionsAsync N) as [existing|].
  - destruct (decide (existing <> "granted"%string)).
    + destruct (Notifications.requestPermissionsAsync N) as [st|].
      * destruct (Hreg st [Notifications.GetPermissions;
                           Notifications.RequestPermissions] (tick (tick w)))
          as (H1 & H2 & H3 & H4 & H5).
        rewrite H1, H2, H3, H4, H5, !sent_tick. by frame_tick.
      * cbn [fst snd]. rewrite !sent_tick. by frame_tick.
    + destruct (Hreg existing [Notifications.GetPermissions] (tick w))
        as (H1 & H2 & H3 & H4 & H5).
      rewrite H1, H2, H3, H4, H5, !sent_tick. by frame_tick.
  - cbn [fst snd]. rewrite sent_tick. by frame_tick.
Qed.

Ltac in_calls :=
  rewrite ?elem_of_app, ?elem_of_cons, ?elem_of_nil;
  intuition (try discriminate; try congruence).

(** X25. Without permission nothing leaves the device. When the permission
    is not granted -- refused, or one of the permission calls throws -- the
    function returns null without asking for a push token, sends no request
    and performs no storage operation. *)
Theorem push_registration_needs_permission
    (N : Notifications.Answers) (w : World) :
  ~ push_permission_granted N ->
  let out := registerForPushNotificationsAsync N w in
  fst (fst out) = None /\
  (Notifications.GetExpoPushToken ∉ snd (fst out)) /\
  sent (snd out) = sent w /\
  secureStore (snd out) = secureStore w /\
  localStorage (snd out) = localStorage w /\
  ioFaults (snd out) = ioFaults w.
Proof.
  unfold push_permission_granted, registerForPushNotificationsAsync,
    register_with_status. intros Hno. cbv zeta.
  destruct (Notifications.getPermissionsAsync N) as [existing|].
  - destruct (decide (existing <> "granted"%string)) as [Hne|Hg].
    + destruct (Notifications.requestPermissionsAsync N) as [st|].
      * destruct (decide (st <> "granted"%string)) as [|Hg2].
        -- cbn [fst snd]. rewrite !sent_tick. frame_tick.
           split_and!; try done. in_calls.
        -- apply dec_stable in Hg2. subst st. destruct Hno. right. by exists existing.
      * cbn [fst snd]. rewrite !sent_tick. frame_tick.
        split_and!; try done. in_calls.
    + apply dec_stable in Hg. subst existing. destruct Hno. by left.
  - cbn [fst snd]. rewrite !sent_tick. frame_tick.
    split_and!; try done. in_calls.
Qed.

Lemma push_registration_needs_permission_witness :
  let N := Notifications.mkAnswers (Some "denied"%string) (Some "denied"%string)
             (Some "ExponentPushToken[1]"%string) in
  let w := boot ios {[ auth_token := "abc"%string ]} ∅ []
             (always (mkResponse 200 None)) 0 in
  fst (fst (registerForPushNotificationsAsync N w)) = None /\
  sent (snd (registerForPushNotificationsAsync N w)) = [].
Proof.
  intros N w.
  destruct (push_registration_needs_permission N w) as (H1 & _ & H3 & _).
  - intros [H|(s & _ & _ & H)]; discriminate H.
  - split; [exact H1|exact H3].
Defined.

(** X26. The permission protocol. The function asks expo-notifications for
    the current permission first, prompts the user exactly when the current
    status is known and is not [granted], and asks for a push token exactly
    when the permission ends up granted; no call is made twice. *)
Theorem push_permission_protocol (N : Notifications.Answers) (w : World) :
  let calls := snd (fst (registerForPushNotificationsAsync N w)) in
  head calls = Some Notifications.GetPermissions /\
  (Notifications.RequestPermissions ∈ calls <->
   exists s, Notifications.getPermissionsAsync N = Some s /\ s <> "granted"%string) /\
  (Notifications.GetExpoPushToken ∈ calls <-> push_permission_granted N) /\
  NoDup calls.
Proof.
  unfold push_permission_granted, registerForPushNotificationsAsync,
    register_with_status. cbv zeta.
  destruct (Notifications.getPermissionsAsync N) as [existing|].
  - destruct (decide (existing <> "granted"%string)) as [Hne|Hg].
    + destruct (Notifications.requestPermissionsAsync N) as [st|].
      * destruct (decide (st <> "granted"%string)) as [Hne2|Hg2].
        -- cbn [fst snd]. split_and!; [done|..].
           ++ split; [by exists existing|]. in_calls.
           ++ split; [in_calls|]. intros [[= ->]|(s & [= <-] & _ & [= ->])]; done.
           ++ repeat constructor; in_calls.
        -- apply dec_stable in Hg2. subst st.
           destruct (Notifications.getExpoPushTokenAsync N) as [token|];
             [destruct (await _ _) as [[r|e] w2]|];
             cbn [fst snd app]; split_and!; try done.
           all: try (split; [by exists existing|]; in_calls).
           all: try (split; [intros _; right; by exists existing|in_calls]).
           all: repeat constructor; in_calls.
      * cbn [fst snd]. split_and!; [done|..].
        -- split; [by exists existing|]. in_calls.
        -- split; [in_calls|]. intros [[= ->]|(s & _ & _ & [=])]; done.
        -- repeat constructor; in_calls.
    + apply dec_stable in Hg. subst existing.
      destruct (Notifications.getExpoPushTokenAsync N) as [token|];
        [destruct (await _ _) as [[r|e] w2]|];
        cbn [fst snd app]; split_and!; try done.
      all: try (split; [in_calls|]; by intros (s & [= <-] & Hs)).
      all: try (split; [intros _; by left|in_calls]).
      all: repeat constructor; in_calls.
  - cbn [fst snd]. split_and!; [done|..].
    + split; [in_calls|]. by intros (s & [=] & _).
    + split; [in_calls|]. intros [[=]|(s & [=] & _)].
    + repeat constructor; in_calls.
Qed.

(** ** The image helpers and the post editor's image list *)

Lemma data_url_some (result : ImagePicker.Result) (s : string) :
  data_url result = Some (Some s) ->
  ImagePicker.canceled result = false /\
  exists a rest b,
    ImagePicker.assets result = a :: rest /\ ImagePicker.base64 a = Some b /\
    b <> EmptyString /\ s = "data:image/jpeg;base64," +:+ b.
Proof.
  unfold data_url, Js.truthy_string.
  destruct (ImagePicker.canceled result); [done|]. cbn [negb].
  destruct (ImagePicker.assets result) as [|a rest]; [done|].
  destruct (ImagePicker.base64 a) as [b|] eqn:Hb; [|done].
  destruct (decide (b = EmptyString)); [done|].
  intros [= <-]. split; [done|]. by exists a, rest, b.
Qed.

(** X27. What the image helpers hand back. For [pickImage] and [takePhoto]
    alike: an image is returned only when the permission was granted, the
    picker was not cancelled and its first asset carries a non-empty base64
    payload, and it is that payload behind the JPEG data-URL prefix, returned
    without any alert; the picker is never opened without the permission;
    a run raises at most one alert; and a cancelled picker returns null
    silently. *)
Theorem image_helpers_outcomes (camera : bool) (P : ImagePicker.Answers) :
  let out := (if camera then takePhoto else pickImage) P in
  (forall s, image out = Some s ->
     ImagePicker.requestPermissionsAsync P = Some "granted"%string /\
     alerts out = [] /\
     exists r a rest b,
       ImagePicker.launchAsync P = Some r /\ ImagePicker.canceled r = false /\
       ImagePicker.assets r = a :: rest /\ ImagePicker.base64 a = Some b /\
       b <> EmptyString /\ s = "data:image/jpeg;base64," +:+ b) /\
  (launched out = true ->
     ImagePicker.requestPermissionsAsync P = Some "granted"%string) /\
  (length (alerts out) <= 1)%nat /\
  (forall r, ImagePicker.requestPermissionsAsync P = Some "granted"%string ->
     ImagePicker.launchAsync P = Some r -> ImagePicker.canceled r = true ->
     image out = None /\ alerts out = []).
Proof.
  cbv zeta.
  assert (forall pm fm,
    let out := pick pm fm P in
    (forall s, image out = Some s ->
       ImagePicker.requestPermissionsAsync P = Some "granted"%string /\
       alerts out = [] /\
       exists r a rest b,
         ImagePicker.launchAsync P = Some r /\ ImagePicker.canceled r = false /\
         ImagePicker.assets r = a :: rest /\ ImagePicker.base64 a = Some b /\
         b <> EmptyString /\ s = "data:image/jpeg;base64," +:+ b) /\
    (launched out = true ->
       ImagePicker.requestPermissionsAsync P = Some "granted"%string) /\
    (length (alerts out) <= 1)%nat /\
    (forall r, ImagePicker.requestPermissionsAsync P = Some "granted"%string ->
       ImagePicker.launchAsync P = Some r -> ImagePicker.canceled r = true ->
       image out = None /\ alerts out = [])) as Hpick.
  { intros pm fm. cbv zeta. unfold pick.
    destruct (ImagePicker.requestPermissionsAsync P) as [st|].
    2:{ cbn. split_and!; try done; try lia. }
    destruct (decide (st <> "granted"%string)) as [Hne|Hg].
    { cbn. split_and!; try done; try lia. by intros r [= ->]. }
    apply dec_stable in Hg. subst st.
    destruct (ImagePicker.launchAsync P) as [result|].
    2:{ cbn. split_and!; try done; try lia. }
    destruct (data_url result) as [v|] eqn:Hv.
    - cbn [image alerts launched length]. split_and!; try done; try lia.
      + intros s ->. apply data_url_some in Hv as (Hc & a & rest & b & H).
        split_and!; try done. by exists result, a, rest, b.
      + intros r _ [= <-] Hc. split; [|done].
        revert Hv. unfold data_url. rewrite Hc. by intros [= <-].
    - cbn [image alerts launched length]. split_and!; try done; try lia.
      intros r _ [= <-] Hc. revert Hv. unfold data_url. by rewrite Hc. }
  destruct camera; apply Hpick.
Qed.

Lemma image_helpers_outcomes_witness :
  let P := ImagePicker.mkAnswers (Some "granted"%string)
             (Some (ImagePicker.mkResult false [ImagePicker.mkAsset (Some "QUJD"%string)])) in
  image (pickImage P) = Some "data:image/jpeg;base64,QUJD"%string /\
  alerts (pickImage P) = [].
Proof.
  intros P.
  destruct (image_helpers_outcomes false P) as (H & _).
  destruct (H "data:image/jpeg;base64,QUJD"%string eq_refl) as (_ & Ha & _).
  split; [reflexivity|exact Ha].
Defined.

Lemma filter_index_from_spec (i index : nat) (images : list string) :
  filter_index_from i index images =
    if decide (i <= index)%nat then delete (index - i)%nat images else images.
Proof.
  revert i. induction images as [|x rest IH]; intros i.
  - cbn. by destruct (decide _), (index - i)%nat.
  - cbn [filter_index_from]. rewrite IH.
    destruct (decide (i <> index)) as [Hne|He].
    + destruct (decide (i <= index)%nat) as [Hle|Hgt].
      * rewrite decide_True by lia.
        replace (index - i)%nat with (S (index - S i)) by lia. done.
      * by rewrite decide_False by lia.
    + apply dec_stable in He. subst i.
      rewrite decide_False by lia. rewrite decide_True by lia.
      by rewrite Nat.sub_diag.
Qed.

(** X28. Removing an image removes exactly the one at the index. The images
    before the index stay where they are and the ones after it move up by
    one; with an index inside the list the list gets one shorter, with an
    index outside it the list is unchanged; and removing the last index of a
    list that [handlePickImage] just extended gives back the list as it
    was. *)
Theorem handleRemoveImage_removes_one (index : nat) (images : list string) :
  (forall j, handleRemoveImage index images !! j =
             images !! (if decide (j < index)%nat then j else S j)) /\
  ((index < length images)%nat ->
     S (length (handleRemoveImage index images)) = length images) /\
  ((length images <= index)%nat -> handleRemoveImage index images = images) /\
  (forall picked,
     handleRemoveImage (length images) (add_image images picked) = images).
Proof.
  unfold handleRemoveImage. split_and!.
  - intros j. rewrite filter_index_from_spec, decide_True, Nat.sub_0_r by lia.
    apply list_lookup_delete.
  - intros H. rewrite filter_index_from_spec, decide_True, Nat.sub_0_r by lia.
    rewrite delete_take_drop, length_app, length_take, length_drop. lia.
  - intros H. rewrite filter_index_from_spec, decide_True, Nat.sub_0_r by lia.
    rewrite delete_take_drop, take_ge, drop_ge by lia. apply app_nil_r.
  - intros picked. rewrite filter_index_from_spec, decide_True, Nat.sub_0_r by lia.
    unfold add_image. destruct (Js.truthy picked) eqn:Hp.
    + destruct picked as [s|]; [|done].
      change (option_list (Some s)) with [s].
      rewrite delete_middle. apply app_nil_r.
    + rewrite delete_take_drop, take_ge, drop_ge by lia. apply app_nil_r.
Qed.

Lemma handleRemoveImage_removes_one_witness :
  S (length (handleRemoveImage 1 ["a"; "b"; "c"]%string)) = 3%nat /\
  handleRemoveImage 5 ["a"; "b"; "c"]%string = ["a"; "b"; "c"]%string.
Proof.
  destruct (handleRemoveImage_removes_one 1 ["a"; "b"; "c"]%string) as (_ & H & _).
  destruct (handleRemoveImage_removes_one 5 ["a"; "b"; "c"]%string) as (_ & _ & H' & _).
  split; [apply H; simpl; lia|apply H'; simpl; lia].
Defined.

(** ** The tags of a post *)

Lemma split_comma_plain (piece t : list N) :
  comma ∉ t -> split_comma piece t = [piece ++ t].
Proof.
  revert piece. induction t as [|c t IH]; intros piece H; cbn [split_comma].
  - by rewrite app_nil_r.
  - apply not_elem_of_cons in H as [Hc Ht].
    rewrite decide_False by done. rewrite IH by done.
    by rewrite <- app_assoc.
Qed.

Lemma split_comma_first (piece t rest : list N) :
  comma ∉ t ->
  split_comma piece (t ++ comma :: rest) = (piece ++ t) :: split_comma [] rest.
Proof.
  revert piece. induction t as [|c t IH]; intros piece H.
  - cbn [app split_comma]. rewrite decide_True by done. by rewrite app_nil_r.
  - apply not_elem_of_cons in H as [Hc Ht].
    cbn [app split_comma]. rewrite decide_False by done. rewrite IH by done.
    by rewrite <- app_assoc.
Qed.

Lemma split_comma_pieces (piece s : list N) :
  comma ∉ piece -> Forall (fun t => comma ∉ t) (split_comma piece s).
Proof.
  revert piece. induction s as [|c s IH]; intros piece H; cbn [split_comma].
  - by constructor.
  - destruct (decide (c = comma)) as [->|Hc].
    + constructor; [done|]. apply IH. apply not_elem_of_nil.
    + apply IH. rewrite elem_of_app, list_elem_of_singleton.
      intros [?|?]; [done|congruence].
Qed.

(** [trimStart] drops a prefix of white space and stops at the first other
    character. *)
Lemma trimStart_split (s : list N) :
  exists ws, s = ws ++ trimStart s /\ Forall (fun c => is_white_space c = true) ws.
Proof.
  induction s as [|c s (ws & IH & Hws)]; [by exists []|].
  cbn [trimStart]. destruct (is_white_space c) eqn:Hc.
  - exists (c :: ws). split; [cbn; by f_equal|by constructor].
  - by exists [].
Qed.

Lemma trimStart_head (s : list N) (c : N) :
  head (trimStart s) = Some c -> is_white_space c = false.
Proof.
  induction s as [|x s IH]; [done|]. cbn [trimStart].
  destruct (is_white_space x) eqn:Hx; [done|]. by intros [= <-].
Qed.

Lemma trimStart_clean (ws t : list N) :
  Forall (fun c => is_white_space c = true) ws ->
  (forall c, head t = Some c -> is_white_space c = false) ->
  trimStart (ws ++ t) = t.
Proof.
  intros Hws Ht. induction Hws as [|c ws Hc _ IH]; cbn [app].
  - destruct t as [|c t]; [done|]. cbn [trimStart]. by rewrite (Ht c eq_refl).
  - cbn [trimStart]. by rewrite Hc.
Qed.

Lemma trimEnd_split (s : list N) :
  exists ws, s = trimEnd s ++ ws /\ Forall (fun c => is_white_space c = true) ws.
Proof.
  destruct (trimStart_split (reverse s)) as (ws & H & Hws).
  exists (reverse ws). split; [|by apply Forall_reverse].
  unfold trimEnd. rewrite <- reverse_app, <- H. by rewrite reverse_involutive.
Qed.

Lemma trimEnd_clean (t : list N) :
  (forall c, last t = Some c -> is_white_space c = false) -> trimEnd t = t.
Proof.
  intros H. unfold trimEnd.
  rewrite <- (app_nil_l (reverse t)), trimStart_clean; [apply reverse_involutive|done|].
  intros c. rewrite head_reverse. apply H.
Qed.

Lemma trim_clean (ws t : list N) :
  Forall (fun c => is_white_space c = true) ws ->
  (forall c, head t = Some c -> is_white_space c = false) ->
  (forall c, last t = Some c -> is_white_space c = false) ->
  trim (ws ++ t) = t.
Proof.
  intros Hws Hh Hl. unfold trim. rewrite trimStart_clean by done.
  by apply trimEnd_clean.
Qed.

Lemma trim_result (s : list N) :
  (forall c, c ∈ trim s -> c ∈ s) /\
  (forall c, head (trim s) = Some c -> is_white_space c = false) /\
  (forall c, last (trim s) = Some c -> is_white_space c = false).
Proof.
  unfold trim.
  destruct (trimStart_split s) as (ws & Hs & _).
  destruct (trimEnd_split (trimStart s)) as (ws' & He & _).
  split_and!.
  - intros c Hc. rewrite Hs, He. rewrite !elem_of_app. auto.
  - intros c Hc. apply (trimStart_head s).
    rewrite He. destruct (trimEnd (trimStart s)); [done|exact Hc].
  - intros c. unfold trimEnd. rewrite last_reverse. apply trimStart_head.
Qed.

(** X29. The tags sent with a post are clean, whatever was typed: every
    element of [tagsArray] is non-empty, contains no comma and neither starts
    nor ends with white space. Typed text without any tag in it -- nothing,
    blanks, bare commas -- gives the empty list. *)
Theorem tagsArray_clean (tags : list N) :
  Forall clean_tag (tagsArray tags) /\
  (Forall (fun c => c = comma \/ is_white_space c = true) tags ->
   tagsArray tags = []).
Proof.
  unfold tagsArray. split.
  - apply Forall_forall. intros t [Hne Ht]%list_elem_of_filter.
    apply list_elem_of_fmap in Ht as (p & -> & Hp).
    destruct (trim_result p) as (Hin & Hh & Hl).
    split_and!; try done.
    intros Hc. apply Hin in Hc.
    pose proof (split_comma_pieces [] tags (not_elem_of_nil _)) as Hall.
    rewrite Forall_forall in Hall. by apply (Hall p).
  - intros Hall.
    assert (forall piece,
      Forall (fun c => is_white_space c = true) piece ->
      Forall (fun p => Forall (fun c => is_white_space c = true) p)
             (split_comma piece tags)) as Hblank.
    { induction Hall as [|c s [->|Hc] _ IH]; intros piece Hp; cbn [split_comma].
      - by constructor.
      - rewrite decide_True by done. constructor; [done|]. by apply IH.
      - rewrite decide_False by (intros ->; done).
        apply IH. apply Forall_app. split; [done|]. by repeat constructor. }
    specialize (Hblank [] (Forall_nil_2 _)).
    induction Hblank as [|p ps Hp _ IH]; [done|].
    cbn [fmap list_fmap]. rewrite filter_cons_False; [exact IH|].
    intros Hne. apply Hne.
    rewrite <- (app_nil_r p). apply trim_clean; done.
Qed.

Lemma tagsArray_clean_witness :
  tagsArray [32; 44; 9; 44; 44; 160]%N = [].
Proof.
  apply (tagsArray_clean [32; 44; 9; 44; 44; 160]%N).
  repeat constructor; (by left) || (by right).
Defined.

Lemma split_comma_app_plain (piece g s : list N) :
  comma ∉ g -> split_comma piece (g ++ s) = split_comma (piece ++ g) s.
Proof.
  revert piece. induction g as [|c g IH]; intros piece H; cbn [app].
  - by rewrite app_nil_r.
  - apply not_elem_of_cons in H as [Hc Hg].
    cbn [split_comma]. rewrite decide_False by done. rewrite IH by done.
    by rewrite <- app_assoc.
Qed.

Lemma white_space_no_comma (g : list N) :
  Forall (fun c => is_white_space c = true) g -> comma ∉ g.
Proof.
  intros H Hc. rewrite Forall_forall in H. by specialize (H _ Hc).
Qed.

Lemma tags_of_join (gap g : list N) (tags : list (list N)) :
  Forall (fun c => is_white_space c = true) gap ->
  Forall (fun c => is_white_space c = true) g ->
  Forall clean_tag tags ->
  filter (fun t => t <> []) (trim <$> split_comma g (join (comma :: gap) tags)) = tags.
Proof.
  intros Hgap Hg Hall. revert g Hg.
  induction Hall as [|t rest (Hne & Hc & Hh & Hl) Hrest IH]; intros g Hg.
  - cbn [join split_comma fmap list_fmap].
    rewrite filter_cons_False; [done|].
    intros H. apply H. rewrite <- (app_nil_r g). by apply trim_clean.
  - destruct rest as [|t' rest].
    + cbn [join]. rewrite split_comma_plain by done.
      cbn [fmap list_fmap]. rewrite trim_clean by done.
      by rewrite filter_cons_True.
    + change (join (comma :: gap) (t :: t' :: rest))
        with (t ++ comma :: (gap ++ join (comma :: gap) (t' :: rest))).
      rewrite split_comma_first by done.
      rewrite split_comma_app_plain by by apply white_space_no_comma.
      cbn [fmap list_fmap app]. rewrite trim_clean by done.
      rewrite filter_cons_True by done. f_equal. by apply IH.
Qed.

(** X30. Clean tags survive the round trip. Typing clean tags separated by a
    comma, with or without white space after it, and submitting gives back
    exactly those tags, in order. *)
Theorem tagsArray_round_trip (gap : list N) (tags : list (list N)) :
  Forall (fun c => is_white_space c = true) gap ->
  Forall clean_tag tags ->
  tagsArray (join (comma :: gap) tags) = tags.
Proof.
  intros Hgap Hall. unfold tagsArray. by apply tags_of_join.
Qed.

Lemma tagsArray_round_trip_witness :
  tagsArray [98; 97; 98; 121; 44; 32; 115; 108; 101; 101; 112]%N =
    [[98; 97; 98; 121]; [115; 108; 101; 101; 112]]%N.
Proof.
  apply (tagsArray_round_trip [32]%N [[98; 97; 98; 121]; [115; 108; 101; 101; 112]]%N).
  - by repeat constructor.
  - repeat constructor; try done.
    all: try (intros c [= <-]; reflexivity).
    all: intros H; repeat (apply elem_of_cons in H as [H|H]; [discriminate H|]);
      by apply elem_of_nil in H.
Defined.
